(** * icecloud: fleet lifecycle of Icecast relays on EC2

    A shallow embedding of [icecloud.go] and of the playlist templates of
    [template.go] (the later of the two revisions the files hold), and the
    properties of the fleet orchestrator proved on it.

    Conventions of the embedding.
    - A [*Server] is the position of the server in [c.Server]; the [Config]
      the methods receive is the shared heap object, kept in [State] next to
      the outside world.
    - Every call that leaves the process (EC2, ssh, files, the clock, the log)
      is an atomic action on the [World]: it asks the environment [Env] for
      the answer, given everything that happened so far, and appends an
      [Event] to the trace.  EC2 and ssh events carry the position of the
      server the call was made for.
    - Sequential code is a [Prog]; goroutines are [Prog]s interleaved action
      by action under an arbitrary schedule ([fanout]).
    - [panic] and a nil dereference are [Panic]; the only unbounded loop
      ([waitReady]) takes a bound on its iterations and [Spin]s beyond it. *)

From stdpp Require Import base list gmap strings pretty.
From Stdlib Require Import ZArith Lia.

Open Scope string_scope.
Open Scope list_scope.
Open Scope Z_scope.

(** ** Data model *)

Definition Err := string.

(** [aws.Auth] *)
Record Auth := { AccessKey : string; SecretKey : string }.

(** [aws.Region]: the five regions the program names *)
Inductive Region := APNortheast | APSoutheast | EUWest | USEast | USWest.

(** [ec2.Instance], the two fields the program reads *)
Record ec2_Instance := { InstanceId : string; DNSName : string }.

(** [ec2.Reservation] as the list of its instances *)
Definition Reservation := list ec2_Instance.

Record Icecast := {
  SourcePassword : string;
  RelayPassword : string;
  AdminPassword : string;
  ListenPort : Z
}.

Record Server := {
  Name : string;
  Kind : string;
  Location : string;
  Username : string;
  ImageID : string;
  Size : string;
  NumClients : Z;
  NumSources : Z;
  Instance : option ec2_Instance
}.

Record Config := {
  Config_KeyName : string;
  Config_Server : list Server;
  Config_Icecast : option Icecast;
  Config_auth : Auth
}.

(** [ec2.RunInstances], the options the program sets *)
Record RunInstancesOptions := {
  opt_ImageId : string;
  opt_InstanceType : string;
  opt_KeyName : string
}.

Definition set_Instance (s : Server) (inst : ec2_Instance) : Server :=
  {| Name := Name s; Kind := Kind s; Location := Location s;
     Username := Username s; ImageID := ImageID s; Size := Size s;
     NumClients := NumClients s; NumSources := NumSources s;
     Instance := Some inst |}.

Definition set_Server (c : Config) (l : list Server) : Config :=
  {| Config_KeyName := Config_KeyName c; Config_Server := l;
     Config_Icecast := Config_Icecast c; Config_auth := Config_auth c |}.

Definition set_auth (c : Config) (a : Auth) : Config :=
  {| Config_KeyName := Config_KeyName c; Config_Server := Config_Server c;
     Config_Icecast := Config_Icecast c; Config_auth := a |}.

(** ** The outside world *)

Inductive Op :=
| OpRunInstances (i : nat) (r : Region) (o : RunInstancesOptions)
    (resp : Err + list ec2_Instance)
| OpInstances (i : nat) (r : Region) (ids : list string)
    (resp : Err + list Reservation)
| OpTerminateInstances (i : nat) (r : Region) (ids : list string)
    (resp : option Err)
| OpSsh (i : nat) (userhost command : string) (stdin : option string)
    (out : string) (resp : option Err)
| OpSleep (i : nat) (d : Z)
| OpCreate (name : string) (resp : option Err)
| OpWrite (name : string) (data : string) (resp : option Err)
| OpClose (name : string)
| OpReadFile (name : string) (resp : Err + string)
| OpWriteFile (name : string) (data : string) (resp : option Err)
| OpLog (msg : string).

Record Event := { ev_time : Z; ev_op : Op }.

Record World := { now : Z; trace : list Event }.

(** The environment: what EC2, ssh, the file system and the libraries answer.
    Answers may depend on the whole history. *)
Record Env := {
  aws_EnvAuth : World -> Err + Auth;
  ioutil_ReadFile : World -> string -> Err + string;
  ioutil_WriteFile : World -> string -> string -> option Err;
  json_Unmarshal : string -> Err + Config;
  json_MarshalIndent : Config -> Err + string;
  ec2_RunInstances :
    World -> Auth -> Region -> RunInstancesOptions -> Err + list ec2_Instance;
  ec2_Instances :
    World -> Auth -> Region -> list string -> Err + list Reservation;
  ec2_TerminateInstances :
    World -> Auth -> Region -> list string -> option Err;
  ssh_CombinedOutput :
    World -> string -> string -> option string -> string * option Err;
  os_Create : World -> string -> option Err;
  file_Write : World -> string -> string -> option Err;
  setupTmpl_Execute : option Icecast -> Server -> option Server -> Err + string;
  latency : World -> Z
}.

Record State := { cfg : Config; world : World }.

(** ** Programs *)

Inductive Prog (A : Type) : Type :=
| Ret (a : A)
| Panic (msg : string)
| Spin
| Act {X : Type} (f : State -> X * State) (k : X -> Prog A).

Arguments Ret {A} a.
Arguments Panic {A} msg.
Arguments Spin {A}.
Arguments Act {A X} f k.

Fixpoint bind {A B : Type} (p : Prog A) (g : A -> Prog B) : Prog B :=
  match p with
  | Ret a => g a
  | Panic m => Panic m
  | Spin => Spin
  | Act f k => Act f (fun x => bind (k x) g)
  end.

Notation "x <- p ;; q" := (bind p (fun x => q))
  (at level 100, p at next level, right associativity).
Notation "p ;;; q" := (bind p (fun _ => q))
  (at level 100, right associativity).

Inductive Outcome (A : Type) : Type :=
| Val (a : A)
| Crashed (msg : string)
| Diverged.

Arguments Val {A} a.
Arguments Crashed {A} msg.
Arguments Diverged {A}.

Fixpoint exec {A : Type} (p : Prog A) (st : State) : Outcome A * State :=
  match p with
  | Ret a => (Val a, st)
  | Panic m => (Crashed m, st)
  | Spin => (Diverged, st)
  | Act f k => let '(x, st') := f st in exec (k x) st'
  end.

(** One atomic action of a program; [None] when it has none left. *)
Definition step1 {A : Type} (p : Prog A) (st : State) : option (Prog A * State) :=
  match p with
  | Act f k => let '(x, st') := f st in Some (k x, st')
  | _ => None
  end.

(** What is left of the programs of a group of goroutines ([None] for one
    whose value has been received). *)
Abbreviation Pool A := (list (option (Prog A))).

(** ** The program *)

Definition Locations : gmap string Region :=
  list_to_map
    [("Tokyo", APNortheast); ("Singapore", APSoutheast); ("Europe", EUWest);
     ("USEast", USEast); ("USWest", USWest)].

(** [func (s *Server) String() string] *)
Definition Server_String (s : Server) : string :=
  let a := Kind s +:+ " " +:+ Location s in
  match Instance s with
  | Some inst => a +:+ " (" +:+ InstanceId inst +:+ ") (" +:+ DNSName inst +:+ ")"
  | None => a
  end.

(** [func (c *Config) ServerURL(s *Server) string] *)
Definition ServerURL (c : Config) (s : Server) : string :=
  match Instance s, Config_Icecast c with
  | Some inst, Some ice =>
      "http://" +:+ DNSName inst +:+ ":" +:+ pretty (ListenPort ice) +:+ "/"
  | _, _ => ""
  end.

(** The playlist templates of [template.go]. *)
Definition m3uTmpl (servers : list string) : string :=
  fold_right (fun s out => s +:+ "
" +:+ out) "" servers.

Definition idx (i : Z) : Z := i + 1.

Definition plsTmpl_entry (i : nat) (s : string) : string :=
  "
File" +:+ pretty (idx (Z.of_nat i)) +:+ "=" +:+ s +:+ "
Title" +:+ pretty (idx (Z.of_nat i)) +:+ "=Server " +:+ pretty (idx (Z.of_nat i)) +:+ "
Length" +:+ pretty (idx (Z.of_nat i)) +:+ "=-1
".

Definition plsTmpl (servers : list string) : string :=
  "
[playlist]
" +:+ fold_right String.append "" (imap plsTmpl_entry servers) +:+ "
NumberOfEntries=" +:+ pretty (Z.of_nat (length servers)) +:+ "
Version=2
".

(** The inner loop of [writePlaylist]: the entries of the playlist of the
    server [s] at position [i]. *)
Definition writePlaylist_servers (c : Config) (mount : string) (i : nat)
    (s : Server) : list string :=
  fold_left
    (fun servers js =>
       if (Kind js.2 =? "master")%string || (i =? js.1)%nat then servers
       else (servers ++ [ServerURL c js.2 +:+ mount])%list)
    (imap pair (Config_Server c))
    [ServerURL c s +:+ mount].

Definition flag_Arg (args : list string) (n : nat) : string :=
  default "" (args !! n).

Section Icecloud.

Variable env : Env.

(** An action on the outside world takes the time the environment says and
    is appended to the trace with the time it began. *)
Definition record (w : World) (op : Op) : World :=
  {| now := now w + Z.max 0 (latency env w);
     trace := trace w ++ [{| ev_time := now w; ev_op := op |}] |}.

Definition on_world {X : Type} (f : World -> X * Op) : Prog X :=
  Act (fun st => let '(x, op) := f (world st) in
                 (x, {| cfg := cfg st; world := record (world st) op |}))
      Ret.

Definition getConfig : Prog Config := Act (fun st => (cfg st, st)) Ret.

(** Dereference of the server pointer at position [i]. *)
Definition getServer (i : nat) : Prog Server :=
  Act (fun st => (Config_Server (cfg st) !! i, st))
      (fun o => match o with
                | Some s => Ret s
                | None => Panic "index out of range"
                end).

(** [s.Instance = &inst] *)
Definition setInstance (i : nat) (inst : ec2_Instance) : Prog unit :=
  Act (fun st =>
         (tt, {| cfg := set_Server (cfg st)
                          (alter (fun s => set_Instance s inst) i
                                 (Config_Server (cfg st)));
                 world := world st |}))
      Ret.

Definition log_Println (msg : string) : Prog unit :=
  on_world (fun _ => (tt, OpLog msg)).

Definition time_Now : Prog Z := Act (fun st => (now (world st), st)) Ret.

(** [time.Sleep(d)]: the goroutine notes when it may wake, and resumes no
    earlier; other goroutines run in between. *)
Definition time_Sleep (i : nat) (d : Z) : Prog unit :=
  wake <- Act (fun st => (now (world st) + d,
                          {| cfg := cfg st;
                             world := record (world st) (OpSleep i d) |})) Ret;;
  Act (fun st => (tt, {| cfg := cfg st;
                         world := {| now := Z.max (now (world st)) wake;
                                     trace := trace (world st) |} |})) Ret.

(** [func (s *Server) Region() aws.Region] *)
Definition Server_Region (s : Server) : Prog Region :=
  match Locations !! Location s with
  | Some r => Ret r
  | None => Panic ("invalid Server Location: " +:+ Location s)
  end.

(** [func (c *Config) runInstance(s *Server) error] *)
Definition runInstance (i : nat) : Prog (option Err) :=
  c <- getConfig;;
  s <- getServer i;;
  r <- Server_Region s;;
  let options := {| opt_ImageId := ImageID s; opt_InstanceType := Size s;
                    opt_KeyName := Config_KeyName c |} in
  resp <- on_world (fun w =>
            let resp := ec2_RunInstances env w (Config_auth c) r options in
            (resp, OpRunInstances i r options resp));;
  match resp with
  | inl err => Ret (Some err)
  | inr instances =>
      match instances with
      | [inst] => setInstance i inst;;; Ret None
      | _ => Ret (Some ("want 1 instance, got " +:+ pretty (length instances)))
      end
  end.

(** [func (c *Config) getInstance(s *Server)], returning the instance or an
    error *)
Definition getInstance (i : nat) : Prog (Err + ec2_Instance) :=
  c <- getConfig;;
  s <- getServer i;;
  r <- Server_Region s;;
  match Instance s with
  | None => Panic "nil pointer dereference"
  | Some cur =>
      let instIds := [InstanceId cur] in
      resp <- on_world (fun w =>
                let resp := ec2_Instances env w (Config_auth c) r instIds in
                (resp, OpInstances i r instIds resp));;
      match resp with
      | inl err => Ret (inl err)
      | inr reservations =>
          match reservations with
          | [res] =>
              match res with
              | [inst] => setInstance i inst;;; Ret (inr inst)
              | _ => Ret (inl ("getInstance: want 1 instance, got "
                               +:+ pretty (length res)))
              end
          | _ => Ret (inl ("getInstance: want 1 reservation, got "
                           +:+ pretty (length reservations)))
          end
      end
  end.

Definition waitReady_deadline : Z := 2 * 60 * 1000000000.

(** The loop of [waitReady], at most [n] iterations of it. *)
Fixpoint waitReady_loop (n : nat) (i : nat) (deadline : Z) : Prog (option Err) :=
  t <- time_Now;;
  if t <? deadline then
    match n with
    | O => Spin
    | S n' =>
        r <- getInstance i;;
        match r with
        | inl err => Ret (Some err)
        | inr inst =>
            if negb (DNSName inst =? "")%string then Ret None
            else time_Sleep i 5000000000;;; waitReady_loop n' i deadline
        end
    end
  else Ret (Some "waitReady: server took too long").

(** [func (c *Config) waitReady(s *Server) error] *)
Definition waitReady (n : nat) (i : nat) : Prog (option Err) :=
  t0 <- time_Now;;
  waitReady_loop n i (t0 + waitReady_deadline).

(** The body of the loop of [Shutdown] for the server at position [i];
    [ok] is the flag the loop threads. *)
Definition Shutdown_body (i : nat) (ok : bool) : Prog bool :=
  c <- getConfig;;
  s <- getServer i;;
  match Instance s with
  | None => Ret ok
  | Some inst =>
      r <- Server_Region s;;
      let instIds := [InstanceId inst] in
      err <- on_world (fun w =>
               let resp := ec2_TerminateInstances env w (Config_auth c) r instIds in
               (resp, OpTerminateInstances i r instIds resp));;
      match err with
      | Some e => log_Println (InstanceId inst +:+ " " +:+ e);;; Ret false
      | None => Ret ok
      end
  end.

Fixpoint Shutdown_loop (ns : list nat) (ok : bool) : Prog bool :=
  match ns with
  | [] => Ret ok
  | i :: ns' => ok' <- Shutdown_body i ok;; Shutdown_loop ns' ok'
  end.

(** [func (c *Config) Shutdown() error] *)
Definition Shutdown : Prog (option Err) :=
  c <- getConfig;;
  ok <- Shutdown_loop (seq 0 (length (Config_Server c))) true;;
  if negb ok then Ret (Some "some instances didn't shut down cleanly")
  else Ret None.

(** The first loop of [Run] over the positions [ns]: [Some r] when [Run]
    returns [r] from inside the loop, [None] when the loop runs to its end. *)
Fixpoint Run_loop (ns : list nat) : Prog (option (option Err)) :=
  match ns with
  | [] => Ret None
  | i :: ns' =>
      err <- runInstance i;;
      match err with
      | Some e =>
          log_Println ("run: " +:+ e);;;
          log_Println "trying to shut down";;;
          r <- Shutdown;;
          Ret (Some r)
      | None => Run_loop ns'
      end
  end.

(** The goroutine [Run] starts for the server at position [i]; what it
    returns is what it sends on [done]. *)
Definition Run_worker (n : nat) (i : nat) : Prog nat :=
  err <- waitReady n i;;
  s <- getServer i;;
  match err with
  | Some e => log_Println (Server_String s +:+ ": " +:+ e)
  | None => log_Println (Server_String s +:+ ": ready")
  end;;;
  Ret i.

(** [func (c *Config) sshCommand(s *Server, command string, stdin io.Reader) error];
    the fixed arguments of ssh are left out of the event. *)
Definition sshCommand (i : nat) (command : string) (stdin : option string)
    : Prog (option Err) :=
  s <- getServer i;;
  match Instance s with
  | None => Ret (Some "sshCommand: nil instance")
  | Some inst =>
      let userhost := Username s +:+ "@" +:+ DNSName inst in
      r <- on_world (fun w =>
             let r := ssh_CombinedOutput env w userhost command stdin in
             (r, OpSsh i userhost command stdin r.1 r.2));;
      match r.2 with
      | Some e =>
          s' <- getServer i;;
          log_Println (Server_String s' +:+ ": " +:+ command +:+ "
" +:+ r.1);;;
          Ret (Some e)
      | None => Ret None
      end
  end.

(** [func SetupTemplate(w io.Writer, icecast *Icecast, server, master *Server) error] *)
Definition SetupTemplate (icecast : option Icecast) (server : Server)
    (master : option Server) : Err + string :=
  match setupTmpl_Execute env icecast server master with
  | inl err => inl ("SetupTemplate: " +:+ err)
  | inr script => inr script
  end.

(** The search for the master in [setupInstance]. *)
Definition find_master (l : list Server) : option Server :=
  List.find (fun n => (Kind n =? "master")%string) l.

(** The first part of [setupInstance]: the script for the server [s], or
    the error that ends [setupInstance] before any command is sent. *)
Definition setupInstance_script (c : Config) (s : Server) : Err + string :=
  if (Kind s =? "master")%string then
    SetupTemplate (Config_Icecast c) s None
  else
    match find_master (Config_Server c) with
    | None => inl "no master found in config"
    | Some m => SetupTemplate (Config_Icecast c) s (Some m)
    end.

(** [func (c *Config) setupInstance(s *Server) error] *)
Definition setupInstance (i : nat) : Prog (option Err) :=
  c <- getConfig;;
  s <- getServer i;;
  match setupInstance_script c s with
  | inl err => Ret (Some err)
  | inr stdin =>
      err <- sshCommand i "cat > setup.sh" (Some stdin);;
      match err with
      | Some e => Ret (Some e)
      | None => sshCommand i "bash setup.sh" None
      end
  end.

(** The goroutine [Setup] starts for the server at position [i]; what it
    returns is what it sends on [ok]. *)
Definition Setup_worker (i : nat) : Prog bool :=
  err <- setupInstance i;;
  s <- getServer i;;
  match err with
  | Some e => log_Println (Server_String s +:+ ": " +:+ e);;; Ret false
  | None => log_Println (Server_String s +:+ ": online");;; Ret true
  end.

(** The loop of [writePlaylist] over the servers with their positions. *)
Fixpoint writePlaylist_loop (c : Config) (mount ext : string)
    (t : list string -> string) (l : list (nat * Server)) : Prog (option Err) :=
  match l with
  | [] => Ret None
  | (i, s) :: l' =>
      if (Kind s =? "master")%string then writePlaylist_loop c mount ext t l'
      else
        let servers := writePlaylist_servers c mount i s in
        let name := mount +:+ "-" +:+ Name s +:+ "." +:+ ext in
        err <- on_world (fun w => let r := os_Create env w name in
                                  (r, OpCreate name r));;
        match err with
        | Some e => Ret (Some e)
        | None =>
            err <- on_world (fun w =>
                     let r := file_Write env w name (t servers) in
                     (r, OpWrite name (t servers) r));;
            match err with
            | Some e => Ret (Some e)
            | None =>
                on_world (fun _ => (tt, OpClose name));;;
                writePlaylist_loop c mount ext t l'
            end
        end
  end.

(** [func (c *Config) writePlaylist(mount, ext string, t *template.Template) error] *)
Definition writePlaylist (mount ext : string) (t : list string -> string)
    : Prog (option Err) :=
  c <- getConfig;;
  writePlaylist_loop c mount ext t (imap pair (Config_Server c)).

(** [func (c *Config) Playlist(mount []string) error] *)
Fixpoint Playlist (mount : list string) : Prog (option Err) :=
  match mount with
  | [] => Ret None
  | m :: mount' =>
      err <- writePlaylist m "m3u" m3uTmpl;;
      match err with
      | Some e => Ret (Some e)
      | None =>
          err <- writePlaylist m "pls" plsTmpl;;
          match err with
          | Some e => Ret (Some e)
          | None => Playlist mount'
          end
      end
  end.

(** [func (c *Config) Write(filename string) error] *)
Definition Config_Write (filename : string) : Prog (option Err) :=
  c <- getConfig;;
  match json_MarshalIndent env c with
  | inl err => Ret (Some err)
  | inr b => on_world (fun w => let r := ioutil_WriteFile env w filename b in
                                (r, OpWriteFile filename b r))
  end.

(** ** Goroutines

    The pool holds what is left of each goroutine's program ([None] once its
    value has been received).  A schedule names, action by action, the
    goroutine that moves; a goroutine that has finished hands its value to
    the receiving loop when it is named next.  When the schedule is used up
    the goroutines left run one after the other.  A panic in a goroutine ends
    the process. *)
Fixpoint drain {A : Type} (i : nat) (ws : Pool A) (st : State)
    (rcv : list (nat * A)) : Outcome (list (nat * A)) * State :=
  match ws with
  | [] => (Val rcv, st)
  | None :: ws' => drain (S i) ws' st rcv
  | Some p :: ws' =>
      match exec p st with
      | (Val a, st') => drain (S i) ws' st' (rcv ++ [(i, a)])
      | (Crashed m, st') => (Crashed m, st')
      | (Diverged, st') => (Diverged, st')
      end
  end.

Fixpoint fanout {A : Type} (sched : list nat) (ws : Pool A) (st : State)
    (rcv : list (nat * A)) : Outcome (list (nat * A)) * State :=
  match sched with
  | [] => drain 0 ws st rcv
  | i :: sched' =>
      match ws !! i with
      | Some (Some (Act f k)) =>
          let '(x, st') := f st in
          fanout sched' (<[i := Some (k x)]> ws) st' rcv
      | Some (Some (Ret a)) =>
          fanout sched' (<[i := None]> ws) st (rcv ++ [(i, a)])
      | Some (Some (Panic m)) => (Crashed m, st)
      | _ => fanout sched' ws st rcv
      end
  end.

(** [go func(s *Server) { ... }(s)] for every server, then one receive per
    server. *)
Definition go_all {A : Type} (sched : list nat) (worker : nat -> Prog A)
    (st : State) : Outcome (list (nat * A)) * State :=
  fanout sched
    (map (fun i => Some (worker i)) (seq 0 (length (Config_Server (cfg st)))))
    st [].

(** [func (c *Config) Run() error] *)
Definition Run (sched : list nat) (n : nat) (st : State)
    : Outcome (option Err) * State :=
  match exec (Run_loop (seq 0 (length (Config_Server (cfg st))))) st with
  | (Val (Some r), st1) => (Val r, st1)
  | (Val None, st1) =>
      match go_all sched (Run_worker n) st1 with
      | (Val _, st2) => (Val None, st2)
      | (Crashed m, st2) => (Crashed m, st2)
      | (Diverged, st2) => (Diverged, st2)
      end
  | (Crashed m, st1) => (Crashed m, st1)
  | (Diverged, st1) => (Diverged, st1)
  end.

(** [func (c *Config) Setup() error] *)
Definition Setup (sched : list nat) (st : State)
    : Outcome (option Err) * State :=
  match go_all sched Setup_worker st with
  | (Val rcv, st1) =>
      let allOk := fold_left (fun allOk k => allOk && k.2) rcv true in
      (if negb allOk then Val (Some "some instances didn't set up cleanly")
       else Val None, st1)
  | (Crashed m, st1) => (Crashed m, st1)
  | (Diverged, st1) => (Diverged, st1)
  end.

(** [func ReadConfig(filename string)], returning the configuration or an
    error; on the world alone: there is no [Config] yet. *)
Definition ReadConfig (filename : string) (w : World) : (Err + Config) * World :=
  let b := ioutil_ReadFile env w filename in
  let w1 := record w (OpReadFile filename b) in
  match b with
  | inl err => (inl err, w1)
  | inr b =>
      match json_Unmarshal env b with
      | inl err => (inl err, w1)
      | inr c =>
          match aws_EnvAuth env w1 with
          | inl err => (inl err, w1)
          | inr auth => (inr (set_auth c auth), w1)
          end
      end
  end.

(** [log.Fatal(err)]: the message is logged and the process exits with
    status 1. *)
Definition log_Fatal (err : Err) (w : World) : Outcome Z * World :=
  (Val 1, record w (OpLog err)).

(** [flag.Usage()] as [main] sets it: the process exits with status 1 (the
    text of the message is not recorded). *)
Definition flag_Usage (w : World) : Outcome Z * World := (Val 1, w).

(** The [switch verb] of [main]. *)
Definition main_switch (verb : string) (args : list string) (sched : list nat)
    (n : nat) (st : State) : Outcome (option Err) * State :=
  if (verb =? "run")%string then Run sched n st
  else if (verb =? "setup")%string then Setup sched st
  else if (verb =? "playlist")%string then exec (Playlist (drop 1 args)) st
  else if (verb =? "shutdown")%string then exec Shutdown st
  else (Val (Some "invalid verb"), st).

(** [main] from [ReadConfig] on. *)
Definition main_verb (stateFile verb configFile : string) (args : list string)
    (sched : list nat) (n : nat) (w : World) : Outcome Z * World :=
  match ReadConfig configFile w with
  | (inl err, w1) => log_Fatal err w1
  | (inr config, w1) =>
      match main_switch verb args sched n {| cfg := config; world := w1 |} with
      | (Val (Some err), st1) => log_Fatal err (world st1)
      | (Val None, st1) =>
          match exec (Config_Write stateFile) st1 with
          | (Val (Some err), st2) => log_Fatal err (world st2)
          | (Val None, st2) => (Val 0, world st2)
          | (Crashed m, st2) => (Crashed m, world st2)
          | (Diverged, st2) => (Diverged, world st2)
          end
      | (Crashed m, st1) => (Crashed m, world st1)
      | (Diverged, st1) => (Diverged, world st1)
      end
  end.

(** [func main()]: [stateFile] is the value of the flag, [args] are
    [flag.Args()]; the result is the exit status of the process. *)
Definition main (stateFile : string) (args : list string) (sched : list nat)
    (n : nat) (w : World) : Outcome Z * World :=
  let verb := flag_Arg args 0 in
  if (verb =? "")%string then flag_Usage w
  else
    let configFile := flag_Arg args 1 in
    if negb (verb =? "run")%string then
      main_verb stateFile verb stateFile args sched n w
    else if (configFile =? "")%string then flag_Usage w
    else main_verb stateFile verb configFile args sched n w.

End Icecloud.

(** ** What a trace shows *)

(** The termination requests of a trace: server, instance identifiers and
    the answer. *)
Definition termination (e : Event) : option (nat * list string * option Err) :=
  match ev_op e with
  | OpTerminateInstances i _ ids resp => Some (i, ids, resp)
  | _ => None
  end.

Definition terminations (evs : list Event) : list (nat * list string * option Err) :=
  omap termination evs.

Definition all_clean (ts : list (nat * list string * option Err)) : bool :=
  forallb (fun t => bool_decide (t.2 = None)) ts.

(** The creation requests of a trace: server and answer. *)
Definition run_request (e : Event) : option (nat * (Err + list ec2_Instance)) :=
  match ev_op e with
  | OpRunInstances i _ _ resp => Some (i, resp)
  | _ => None
  end.

Definition run_requests (evs : list Event) : list (nat * (Err + list ec2_Instance)) :=
  omap run_request evs.

(** The instance a creation answer yields: one exactly, or the creation
    failed. *)
Definition created (resp : Err + list ec2_Instance) : option ec2_Instance :=
  match resp with
  | inr [inst] => Some inst
  | _ => None
  end.

(** The servers that hold an instance, from position [k] on, each with the
    identifiers a termination request for it carries. *)
Fixpoint live_at (k : nat) (l : list Server) : list (nat * list string) :=
  match l with
  | [] => []
  | s :: l' =>
      match Instance s with
      | Some inst => (k, [InstanceId inst]) :: live_at (S k) l'
      | None => live_at (S k) l'
      end
  end.

Definition live (l : list Server) : list (nat * list string) := live_at 0 l.

Definition resolvable (s : Server) : Prop := is_Some (Locations !! Location s).


(** The options [runInstance] sends for the server [s]. *)
Definition runInstance_options (c : Config) (s : Server) : RunInstancesOptions :=
  {| opt_ImageId := ImageID s; opt_InstanceType := Size s;
     opt_KeyName := Config_KeyName c |}.

(** What the user wrote about a server: everything but the instance. *)
Definition Server_spec (s : Server) : Server :=
  {| Name := Name s; Kind := Kind s; Location := Location s;
     Username := Username s; ImageID := ImageID s; Size := Size s;
     NumClients := NumClients s; NumSources := NumSources s;
     Instance := None |}.

(** What the user wrote: the configuration but for the instances. *)
Definition Config_spec (c : Config) : Config :=
  set_Server c (map Server_spec (Config_Server c)).

(** [st'] is [st] after instances were created for the servers at the
    positions [a], ..., [a + m - 1], by the events [evs]. *)
Definition Provisioned (a m : nat) (st st' : State) (evs : list Event) : Prop :=
  trace (world st') = trace (world st) ++ evs
  /\ map fst (run_requests evs) = seq a m
  /\ Forall (fun x => is_Some (created x.2)) (run_requests evs)
  /\ terminations evs = []
  /\ Config_spec (cfg st') = Config_spec (cfg st)
  /\ (forall i s, Config_Server (cfg st) !! i = Some s ->
        if decide (a <= i < a + m)%nat
        then resolvable s /\
             exists inst, Config_Server (cfg st') !! i = Some (set_Instance s inst)
        else Config_Server (cfg st') !! i = Some s).

(** The kinds of events, and the traces made of some kinds only. *)
Inductive OpKind :=
| KRunInstances | KInstances | KTerminateInstances | KSsh | KSleep | KCreate
| KWrite | KClose | KReadFile | KWriteFile | KLog.

Definition kind_of (op : Op) : OpKind :=
  match op with
  | OpRunInstances _ _ _ _ => KRunInstances
  | OpInstances _ _ _ _ => KInstances
  | OpTerminateInstances _ _ _ _ => KTerminateInstances
  | OpSsh _ _ _ _ _ _ => KSsh
  | OpSleep _ _ => KSleep
  | OpCreate _ _ => KCreate
  | OpWrite _ _ _ => KWrite
  | OpClose _ => KClose
  | OpReadFile _ _ => KReadFile
  | OpWriteFile _ _ _ => KWriteFile
  | OpLog _ => KLog
  end.

Definition emits (ks : list OpKind) (evs : list Event) : Prop :=
  Forall (fun e => kind_of (ev_op e) ∈ ks) evs.

(** The writes of the state file in a trace: name and content. *)
Definition state_write (e : Event) : option (string * string) :=
  match ev_op e with
  | OpWriteFile name data _ => Some (name, data)
  | _ => None
  end.

Definition state_writes (evs : list Event) : list (string * string) :=
  omap state_write evs.

(** ** Steps

    [always G p]: every action of [p] is a [G]-step, in whatever state it is
    taken. *)
Fixpoint always {A : Type} (G : State -> State -> Prop) (p : Prog A) : Prop :=
  match p with
  | Act f k => (forall st, G st (f st).2) /\ (forall x, always G (k x))
  | _ => True
  end.

(** A step that leaves what the user wrote as it is, lets time pass, and
    adds events of the kinds [ks] to the trace. *)
Definition Frame (ks : list OpKind) (st st' : State) : Prop :=
  Config_spec (cfg st') = Config_spec (cfg st)
  /\ now (world st) <= now (world st')
  /\ exists evs, trace (world st') = trace (world st) ++ evs /\ emits ks evs.

(** Every goroutine of the pool takes [G]-steps only. *)
Definition pool_always {A : Type} (G : State -> State -> Prop) (ws : Pool A)
    : Prop :=
  forall p, Some p ∈ ws -> always G p.

(** The kinds of events the four verbs can add to the trace. *)
Definition verb_kinds : list OpKind :=
  [KRunInstances; KInstances; KTerminateInstances; KSsh; KSleep; KCreate;
   KWrite; KClose; KLog].

(** Two servers, and two configurations, that differ in the instances at
    most. *)
Definition same_user_fields (s s' : Server) : Prop :=
  Name s = Name s' /\ Kind s = Kind s' /\ Location s = Location s'
  /\ Username s = Username s' /\ ImageID s = ImageID s' /\ Size s = Size s'
  /\ NumClients s = NumClients s' /\ NumSources s = NumSources s'.

Definition same_specification (c c' : Config) : Prop :=
  Config_KeyName c = Config_KeyName c'
  /\ Config_Icecast c = Config_Icecast c'
  /\ Config_auth c = Config_auth c'
  /\ Forall2 same_user_fields (Config_Server c) (Config_Server c').

(** ** Playlists *)

(** The URL of a server for a mount. *)
Definition mount_url (c : Config) (mount : string) (s : Server) : string :=
  ServerURL c s +:+ mount.

(** The servers of the fleet, with their positions, that are no master. *)
Definition relays (c : Config) : list (nat * Server) :=
  filter (fun js => Kind js.2 <> "master") (imap pair (Config_Server c)).

(** The relays other than the one at position [i]. *)
Definition other_relays (c : Config) (i : nat) : list (nat * Server) :=
  filter (fun js => js.1 <> i) (relays c).

(** The block of the entry number [k] (from one) in a [pls] file. *)
Definition pls_block (k : nat) (url : string) : string :=
  "
File" +:+ pretty (Z.of_nat k) +:+ "=" +:+ url +:+ "
Title" +:+ pretty (Z.of_nat k) +:+ "=Server " +:+ pretty (Z.of_nat k) +:+ "
Length" +:+ pretty (Z.of_nat k) +:+ "=-1
".

Definition concat_strings (l : list string) : string :=
  fold_right String.append "" l.

(** The writes of playlist files in a trace: name and content. *)
Definition file_write (e : Event) : option (string * string) :=
  match ev_op e with
  | OpWrite name data _ => Some (name, data)
  | _ => None
  end.

Definition file_writes (evs : list Event) : list (string * string) :=
  omap file_write evs.

(** The files [writePlaylist] is to write: one per relay. *)
Definition playlist_files (c : Config) (mount ext : string)
    (t : list string -> string) : list (string * string) :=
  map (fun js => (mount +:+ "-" +:+ Name js.2 +:+ "." +:+ ext,
                  t (writePlaylist_servers c mount js.1 js.2)))
      (relays c).

(** ** Waiting for readiness *)

(** What [getInstance] makes of an answer of EC2: the instance, or an error. *)
Definition described (resp : Err + list Reservation) : Err + ec2_Instance :=
  match resp with
  | inl err => inl err
  | inr reservations =>
      match reservations with
      | [res] =>
          match res with
          | [inst] => inr inst
          | _ => inl ("getInstance: want 1 instance, got " +:+ pretty (length res))
          end
      | _ => inl ("getInstance: want 1 reservation, got "
                  +:+ pretty (length reservations))
      end
  end.

(** An answer that shows no address yet. *)
Definition quiet (resp : Err + list Reservation) : bool :=
  match described resp with
  | inr inst => (DNSName inst =? "")%string
  | inl _ => false
  end.

(** An answer that shows an address. *)
Definition ready (resp : Err + list Reservation) : bool :=
  match described resp with
  | inr inst => negb (DNSName inst =? "")%string
  | inl _ => false
  end.

(** The polls of a trace: when each began and what EC2 answered. *)
Definition poll (e : Event) : option (Z * (Err + list Reservation)) :=
  match ev_op e with
  | OpInstances _ _ _ resp => Some (ev_time e, resp)
  | _ => None
  end.

Definition polls (evs : list Event) : list (Z * (Err + list Reservation)) :=
  omap poll evs.

Definition waitReady_timeout : Err := "waitReady: server took too long".

(** [Waited i deadline t evs r t']: from the time [t] on, the loop of
    [waitReady] for the server at [i] adds the events [evs] to the trace,
    returns [r], and ends at the time [t']. *)
Inductive Waited (i : nat) (deadline : Z)
    : Z -> list Event -> option Err -> Z -> Prop :=
| Waited_timeout t :
    deadline <= t -> Waited i deadline t [] (Some waitReady_timeout) t
| Waited_error t r ids resp e t' :
    t < deadline -> described resp = inl e -> t <= t' ->
    Waited i deadline t
      [{| ev_time := t; ev_op := OpInstances i r ids resp |}] (Some e) t'
| Waited_ready t r ids resp inst t' :
    t < deadline -> described resp = inr inst -> DNSName inst <> "" -> t <= t' ->
    Waited i deadline t
      [{| ev_time := t; ev_op := OpInstances i r ids resp |}] None t'
| Waited_again t r ids resp t1 t2 evs res t' :
    t < deadline -> quiet resp = true -> t <= t1 -> t1 + 5000000000 <= t2 ->
    Waited i deadline t2 evs res t' ->
    Waited i deadline t
      ({| ev_time := t; ev_op := OpInstances i r ids resp |}
       :: {| ev_time := t1; ev_op := OpSleep i 5000000000 |} :: evs) res t'.

(** What the last poll of a wait decides. *)
Definition decided (deadline : Z) (last_poll : option (Z * (Err + list Reservation)))
    (r : option Err) (t' : Z) : Prop :=
  match last_poll with
  | None => r = Some waitReady_timeout /\ deadline <= t'
  | Some p =>
      match described p.2 with
      | inl e => r = Some e
      | inr inst =>
          if quiet p.2 then r = Some waitReady_timeout /\ deadline <= t'
          else r = None
      end
  end.

(** A poll of the server at [i], or a sleep of five seconds for it. *)
Definition poll_or_sleep (i : nat) (e : Event) : Prop :=
  (exists r ids resp, ev_op e = OpInstances i r ids resp)
  \/ ev_op e = OpSleep i 5000000000.

(** The kinds of the events of a wait, given its polls: a poll, and a sleep
    after it when it showed no address. *)
Definition wait_kinds (ps : list (Z * (Err + list Reservation))) : list OpKind :=
  flat_map (fun p => KInstances :: if quiet p.2 then [KSleep] else []) ps.

(** ** Goroutines and what they rely on

    [tsafe R G p s0 Q]: the goroutine with the program [p] left, which last
    saw the state [s0], neither panics nor spins as long as the others take
    [R]-steps; its own steps are [G]-steps, and when it ends with the value
    [a], [Q a] holds of the state it saw last. *)
Fixpoint tsafe {A : Type} (R G : State -> State -> Prop) (p : Prog A)
    (s0 : State) (Q : A -> State -> Prop) : Prop :=
  match p with
  | Ret a => Q a s0
  | Panic _ => False
  | Spin => False
  | Act f k =>
      forall st, R s0 st -> G st (f st).2 /\ tsafe R G (k (f st).1) (f st).2 Q
  end.

(** The server an event was made for. *)
Definition ev_server (e : Event) : option nat :=
  match ev_op e with
  | OpRunInstances i _ _ _ | OpInstances i _ _ _ | OpTerminateInstances i _ _ _
  | OpSsh i _ _ _ _ _ | OpSleep i _ => Some i
  | _ => None
  end.

(** The events of a trace made for the server at [i]. *)
Definition own (i : nat) (evs : list Event) : list Event :=
  filter (fun e => ev_server e = Some i) evs.

(** A step of the goroutine of the server at [i]: it leaves the other
    servers and what the user wrote as they are, and adds polls, sleeps and
    remote commands for its own server, and log lines, to the trace. *)
Definition Own (i : nat) (st st' : State) : Prop :=
  Config_spec (cfg st') = Config_spec (cfg st)
  /\ now (world st) <= now (world st')
  /\ (forall j, j <> i ->
        Config_Server (cfg st') !! j = Config_Server (cfg st) !! j)
  /\ exists evs,
       trace (world st') = trace (world st) ++ evs
       /\ emits [KInstances; KSsh; KSleep; KLog] evs
       /\ Forall (fun e => ev_server e = Some i \/ ev_server e = None) evs.

(** What the goroutine of the server at [i] relies on: time does not go
    back, what the user wrote and its own server stay as they are, and no
    event is made for its server. *)
Definition Others (i : nat) (st st' : State) : Prop :=
  Config_spec (cfg st') = Config_spec (cfg st)
  /\ now (world st) <= now (world st')
  /\ Config_Server (cfg st') !! i = Config_Server (cfg st) !! i
  /\ own i (trace (world st')) = own i (trace (world st)).

(** The goroutines left in the pool (the first of them that of the server at
    [k]) are safe, each from the state it saw last. *)
Definition pool_safe {A : Type} (R G : nat -> State -> State -> Prop)
    (Q : nat -> A -> State -> Prop) (k : nat) (ws : Pool A) (st : State) : Prop :=
  forall j p, ws !! j = Some (Some p) ->
    exists s0, R (k + j)%nat s0 st
               /\ tsafe (R (k + j)%nat) (G (k + j)%nat) p s0 (Q (k + j)%nat).

(** The goroutine of the server at [i] is still in the pool. *)
Definition pending {A : Type} (k : nat) (ws : Pool A) (i : nat) : Prop :=
  exists j p, i = (k + j)%nat /\ ws !! j = Some (Some p).

(** The values received so far: from goroutines that are gone, one each. *)
Definition received {A : Type} (Q : nat -> A -> State -> Prop) (ws : Pool A)
    (rcv : list (nat * A)) (st : State) : Prop :=
  (forall i a, (i, a) ∈ rcv -> Q i a st /\ ws !! i = Some None)
  /\ NoDup (map fst rcv)
  /\ (forall i, ws !! i = Some None -> i ∈ map fst rcv).

(** ** The rollout *)

(** The remote commands of a trace: the command and its result. *)
Definition command (e : Event) : option (string * option Err) :=
  match ev_op e with
  | OpSsh _ _ c _ _ resp => Some (c, resp)
  | _ => None
  end.

Definition commands (evs : list Event) : list (string * option Err) :=
  omap command evs.

(** A remote command for the server at [i], or a log line. *)
Definition ssh_or_log (i : nat) (e : Event) : Prop :=
  (exists userhost c stdin out resp, ev_op e = OpSsh i userhost c stdin out resp)
  \/ (exists msg, ev_op e = OpLog msg).

(** A step of the goroutine [Setup] starts for the server at [i], one of
    [N]: the configuration stays as it is, and remote commands for the server
    and log lines are added to the trace. *)
Definition Setup_step (N i : nat) (st st' : State) : Prop :=
  (i < N)%nat /\ cfg st' = cfg st
  /\ exists evs, trace (world st') = trace (world st) ++ evs
                 /\ Forall (ssh_or_log i) evs.

(** What that goroutine relies on. *)
Definition Setup_rely (i : nat) (st st' : State) : Prop :=
  cfg st' = cfg st
  /\ own i (trace (world st')) = own i (trace (world st)).

(** What all the goroutines of [Setup] do together. *)
Definition Setup_steps (N : nat) (st st' : State) : Prop :=
  cfg st' = cfg st
  /\ exists evs, trace (world st') = trace (world st) ++ evs
                 /\ Forall (fun e => exists i, (i < N)%nat /\ ssh_or_log i e) evs.

(** [Rollout env c i evs b]: the rollout to the server at [i] of the
    configuration [c] consists of the events [evs] and its outcome is [b]:
    no command when there is no script or no instance, else the upload of the
    script and, when that succeeded, its execution. *)
Definition Rollout (env : Env) (c : Config) (i : nat) (evs : list Event)
    (b : bool) : Prop :=
  exists s, Config_Server c !! i = Some s /\
    match setupInstance_script env c s, Instance s with
    | inr script, Some inst =>
        let userhost := Username s +:+ "@" +:+ DNSName inst in
        exists t1 out1 resp1,
          let upload := {| ev_time := t1;
                           ev_op := OpSsh i userhost "cat > setup.sh"
                                      (Some script) out1 resp1 |} in
          match resp1 with
          | Some _ => evs = [upload] /\ b = false
          | None =>
              exists t2 out2 resp2,
                evs = [upload;
                       {| ev_time := t2;
                          ev_op := OpSsh i userhost "bash setup.sh" None
                                     out2 resp2 |}]
                /\ b = bool_decide (resp2 = None)
          end
    | _, _ => evs = [] /\ b = false
    end.

(** What the goroutine of the server at [i] promises when it ends with [b]:
    since [st0] its rollout, and nothing else, was made for its server. *)
Definition Setup_done (env : Env) (st0 : State) (i : nat) (b : bool)
    (st : State) : Prop :=
  exists evs, own i (trace (world st)) = own i (trace (world st0)) ++ evs
              /\ Rollout env (cfg st0) i evs b.

(** The goroutine of the server at [i] is at a state where, since [st0], the
    events [evs] were made for its server. *)
Definition Setup_at (st0 : State) (i : nat) (evs : list Event) (s : State)
    : Prop :=
  cfg s = cfg st0
  /\ own i (trace (world s)) = own i (trace (world st0)) ++ evs.

(** ** The waits of [Run] *)

(** The goroutine of the server at [i] is at a state where its server is
    [srv] and, since [st1], the events [evs] were made for its server. *)
Definition Run_at (st1 : State) (i : nat) (evs : list Event) (srv : Server)
    (s : State) : Prop :=
  Config_spec (cfg s) = Config_spec (cfg st1)
  /\ Config_Server (cfg s) !! i = Some srv
  /\ own i (trace (world s)) = own i (trace (world st1)) ++ evs.

(** What the goroutine of the server at [i] promises when it ends: it sends
    its server, and since [st1] only polls and sleeps of five seconds were
    made for its server. *)
Definition Run_done (st1 : State) (i : nat) (v : nat) (st : State) : Prop :=
  v = i
  /\ exists evs, own i (trace (world st)) = own i (trace (world st1)) ++ evs
                 /\ Forall (poll_or_sleep i) evs.

(** ** Example fleets and environments *)

Module Examples.

Definition server (name kind location : string) (inst : option ec2_Instance)
    : Server :=
  {| Name := name; Kind := kind; Location := location; Username := "ubuntu";
     ImageID := "ami-1"; Size := "t1.micro"; NumClients := 100;
     NumSources := 2; Instance := inst |}.

Definition instance (id dns : string) : ec2_Instance :=
  {| InstanceId := id; DNSName := dns |}.

Definition icecast : Icecast :=
  {| SourcePassword := "src"; RelayPassword := "rly"; AdminPassword := "adm";
     ListenPort := 8000 |}.

Definition config (l : list Server) : Config :=
  {| Config_KeyName := "key"; Config_Server := l;
     Config_Icecast := Some icecast;
     Config_auth := {| AccessKey := "AK"; SecretKey := "SK" |} |}.

Definition dawn : World := {| now := 0; trace := [] |}.

Definition state (l : list Server) : State :=
  {| cfg := config l; world := dawn |}.

(** An environment given by what EC2 and ssh answer; files, the JSON codec
    and the script template always succeed, [file] is what the configuration
    file decodes to, and calls take no time. *)
Definition environment
    (run : World -> RunInstancesOptions -> Err + list ec2_Instance)
    (describe : World -> list string -> Err + list Reservation)
    (terminate : World -> list string -> option Err)
    (ssh : World -> string -> string -> option Err)
    (file : Config) : Env :=
  {| aws_EnvAuth := fun _ => inr {| AccessKey := "AK"; SecretKey := "SK" |};
     ioutil_ReadFile := fun _ _ => inr "{}";
     ioutil_WriteFile := fun _ _ _ => None;
     json_Unmarshal := fun _ => inr file;
     json_MarshalIndent := fun _ => inr "{}";
     ec2_RunInstances := fun w _ _ o => run w o;
     ec2_Instances := fun w _ _ ids => describe w ids;
     ec2_TerminateInstances := fun w _ _ ids => terminate w ids;
     ssh_CombinedOutput := fun w userhost command _ => ("", ssh w userhost command);
     os_Create := fun _ _ => None;
     file_Write := fun _ _ _ => None;
     setupTmpl_Execute := fun _ _ _ => inr "#!/bin/bash";
     latency := fun _ => 0 |}.

(** EC2 creates one instance per request, named after the image. *)
Definition run_ok (w : World) (o : RunInstancesOptions)
    : Err + list ec2_Instance :=
  inr [instance ("i-" +:+ opt_ImageId o) ""].

(** EC2 reports the address [host] from the time [t] on, none before. *)
Definition describe_from (t : Z) (w : World) (ids : list string)
    : Err + list Reservation :=
  inr [[instance (default "" (head ids))
          (if now w <? t then "" else "host")]].

(** EC2 creates instances until [q] creations were asked for, and refuses
    from then on. *)
Definition run_quota (q : nat) (w : World) (o : RunInstancesOptions)
    : Err + list ec2_Instance :=
  let asked := length (run_requests (trace w)) in
  if (asked <? q)%nat then inr [instance ("i-" +:+ pretty asked) ""]
  else inl "InstanceLimitExceeded".

Definition terminate_ok (w : World) (ids : list string) : option Err := None.

(** EC2 refuses to terminate the instance [id]. *)
Definition terminate_but (id : string) (w : World) (ids : list string)
    : option Err :=
  if bool_decide (id ∈ ids) then Some "refused" else None.

Definition ssh_ok (w : World) (userhost command : string) : option Err := None.

(** ssh fails for the host [host]. *)
Definition ssh_but (host : string) (w : World) (userhost command : string)
    : option Err :=
  if (userhost =? "ubuntu@" +:+ host)%string then Some "exit status 255"
  else None.

Definition fleet3 : list Server :=
  [server "origin" "master" "Tokyo" (Some (instance "i-1" "h1"));
   server "eu" "slave" "Europe" None;
   server "us" "slave" "USEast" (Some (instance "i-3" "h3"))].

Definition fresh3 : list Server :=
  [server "origin" "master" "Tokyo" None;
   server "eu" "slave" "Europe" None;
   server "us" "slave" "USEast" None].

(** EC2 refuses the second creation; the configuration file names the three
    servers of [fresh3]. *)
Definition quota1 : Env :=
  environment (run_quota 1) (describe_from 0) terminate_ok ssh_ok (config fresh3).

(** EC2 refuses every creation; the configuration file names one server. *)
Definition quota0 : Env :=
  environment (run_quota 0) (describe_from 0) terminate_ok ssh_ok
    (config [server "origin" "master" "Tokyo" None]).

(** [icecloud run config.json] when EC2 refuses every creation. *)
Definition quota0_run : Outcome Z * World :=
  main quota0 "state.json" ["run"; "config.json"] [] 24 dawn.

(** EC2 refuses to terminate the first instance of [fleet3], which the
    state file holds. *)
Definition stubborn : Env :=
  environment run_ok (describe_from 0) (terminate_but "i-1") ssh_ok
    (config fleet3).

(** [icecloud shutdown] when a termination fails. *)
Definition stubborn_shutdown : Outcome Z * World :=
  main stubborn "state.json" ["shutdown"] [] 24 dawn.

(** EC2 assigns the address twelve seconds after the dawn of time. *)
Definition slow_start : Env :=
  environment run_ok (describe_from 12000000000) terminate_ok ssh_ok (config fleet3).

(** EC2 never assigns an address. *)
Definition no_address : Env :=
  environment run_ok (fun w ids => inr [[instance (default "" (head ids)) ""]])
    terminate_ok ssh_ok (config fleet3).

(** Two relays and no master, both provisioned. *)
Definition relays2 : list Server :=
  [server "eu" "slave" "Europe" (Some (instance "i-1" "h1"));
   server "us" "slave" "USEast" (Some (instance "i-2" "h2"))].

(** Everything succeeds. *)
Definition calm : Env :=
  environment run_ok (describe_from 0) terminate_ok ssh_ok (config relays2).

(** ssh to the host [h3] fails. *)
Definition unreachable_h3 : Env :=
  environment run_ok (describe_from 0) terminate_ok (ssh_but "h3") (config fleet3).

End Examples.
(** ** Running programs *)

Arguments runInstance : simpl never.
Arguments getInstance : simpl never.
Arguments waitReady : simpl never.
Arguments Shutdown : simpl never.
Arguments sshCommand : simpl never.
Arguments setupInstance : simpl never.
Arguments writePlaylist : simpl never.
Arguments Config_Write : simpl never.
Arguments Run : simpl never.
Arguments Setup : simpl never.
Arguments ReadConfig : simpl never.
Arguments main_switch : simpl never.

Lemma exec_bind {A B : Type} (p : Prog A) (g : A -> Prog B) st :
  exec (bind p g) st =
  match exec p st with
  | (Val a, st') => exec (g a) st'
  | (Crashed m, st') => (Crashed m, st')
  | (Diverged, st') => (Diverged, st')
  end.
Proof.
  revert st. induction p as [a|m| |X f k IH]; intros st; simpl; try done.
  destruct (f st) as [x st']. apply IH.
Qed.

Lemma elem_of_map {A B : Type} (f : A -> B) (l : list A) (y : B) :
  y ∈ map f l <-> exists x, y = f x /\ x ∈ l.
Proof. apply (list_elem_of_fmap f). Qed.

Lemma terminations_app evs1 evs2 :
  terminations (evs1 ++ evs2) = terminations evs1 ++ terminations evs2.
Proof. apply omap_app. Qed.

Lemma run_requests_app evs1 evs2 :
  run_requests (evs1 ++ evs2) = run_requests evs1 ++ run_requests evs2.
Proof. apply omap_app. Qed.

Lemma all_clean_app ts1 ts2 :
  all_clean (ts1 ++ ts2) = all_clean ts1 && all_clean ts2.
Proof. apply forallb_app. Qed.

Lemma all_clean_false ts :
  all_clean ts = false <-> Exists (fun t => is_Some t.2) ts.
Proof.
  induction ts as [|t ts IH]; simpl.
  - split; [done|]. intros H. inversion H.
  - rewrite andb_false_iff, IH, Exists_cons. apply or_iff_compat_r.
    rewrite bool_decide_eq_false. destruct t.2; split; done.
Qed.

Lemma emits_nil ks : emits ks [].
Proof. constructor. Qed.

Lemma emits_app ks evs1 evs2 :
  emits ks evs1 -> emits ks evs2 -> emits ks (evs1 ++ evs2).
Proof. apply Forall_app_2. Qed.

Lemma emits_mono ks ks' evs : ks ⊆ ks' -> emits ks evs -> emits ks' evs.
Proof. intros Hs H. eapply Forall_impl; [exact H|]. intros e. apply Hs. Qed.

Lemma emits_no_terminations ks evs :
  KTerminateInstances ∉ ks -> emits ks evs -> terminations evs = [].
Proof.
  intros Hk. induction 1 as [|e evs He _ IH]; [done|].
  unfold terminations. cbn [omap list_omap]. fold (terminations evs).
  rewrite IH. unfold termination.
  destruct (ev_op e); done.
Qed.

Lemma emits_no_run_requests ks evs :
  KRunInstances ∉ ks -> emits ks evs -> run_requests evs = [].
Proof.
  intros Hk. induction 1 as [|e evs He _ IH]; [done|].
  unfold run_requests. cbn [omap list_omap]. fold (run_requests evs).
  rewrite IH. unfold run_request.
  destruct (ev_op e); done.
Qed.

Ltac solve_not_elem :=
  rewrite ?not_elem_of_cons; repeat split; (done || apply not_elem_of_nil).

Ltac solve_emits :=
  repeat (apply Forall_cons; split); try apply Forall_nil;
  simpl; repeat constructor.

Lemma elem_of_live_at l : forall k i ids,
  (i, ids) ∈ live_at k l <->
  exists s inst, (k <= i)%nat /\ l !! (i - k)%nat = Some s /\
                 Instance s = Some inst /\ ids = [InstanceId inst].
Proof.
  induction l as [|s l IH]; intros k i ids; simpl.
  - split; [by intros ?%elem_of_nil|]. by intros (? & ? & ? & ? & _).
  - assert (Hrest : (i, ids) ∈ live_at (S k) l <->
        exists s' inst, (k < i)%nat /\ (s :: l) !! (i - k)%nat = Some s' /\
                        Instance s' = Some inst /\ ids = [InstanceId inst]).
    { rewrite IH. split; intros (s' & inst & Hk & Hl & Hi).
      - exists s', inst. split; [lia|]. split; [|done].
        replace (i - k)%nat with (S (i - S k)) by lia. done.
      - exists s', inst. split; [lia|]. split; [|done].
        replace (i - k)%nat with (S (i - S k)) in Hl by lia. done. }
    destruct (Instance s) as [inst0|] eqn:Hs.
    + rewrite elem_of_cons, Hrest. split.
      * intros [Heq|(s' & inst & Hk & Hl & Hi)].
        -- injection Heq as -> ->. exists s, inst0. rewrite Nat.sub_diag. done.
        -- exists s', inst. split; [lia|done].
      * intros (s' & inst & Hk & Hl & Hi & Hids).
        destruct (decide (i = k)) as [->|Hne].
        -- left. rewrite Nat.sub_diag in Hl. simpl in Hl. injection Hl as <-.
           rewrite Hs in Hi. injection Hi as <-. by subst.
        -- right. exists s', inst. split; [lia|done].
    + rewrite Hrest. split; intros (s' & inst & Hk & Hl & Hi & Hids).
      * exists s', inst. split; [lia|done].
      * destruct (decide (i = k)) as [->|Hne].
        -- rewrite Nat.sub_diag in Hl. simpl in Hl. injection Hl as <-. congruence.
        -- exists s', inst. split; [lia|done].
Qed.

(** A server is in [live] exactly when it holds an instance. *)
Lemma elem_of_live l i ids :
  (i, ids) ∈ live l <->
  exists s inst, l !! i = Some s /\ Instance s = Some inst /\
                 ids = [InstanceId inst].
Proof.
  unfold live. rewrite elem_of_live_at. setoid_rewrite Nat.sub_0_r.
  split; intros (s & inst & H); exists s, inst; [tauto|]. split; [lia|tauto].
Qed.

Lemma live_at_app l1 : forall k l2,
  live_at k (l1 ++ l2) = live_at k l1 ++ live_at (k + length l1) l2.
Proof.
  induction l1 as [|s l1 IH]; intros k l2; simpl.
  - by rewrite Nat.add_0_r.
  - rewrite IH, Nat.add_succ_r. by destruct (Instance s).
Qed.

Section Sequential.

Variable env : Env.

Lemma record_trace w op :
  trace (record env w op) = trace w ++ [{| ev_time := now w; ev_op := op |}].
Proof. reflexivity. Qed.

Lemma record_now w op : now w <= now (record env w op).
Proof. simpl. lia. Qed.

(** *** Shutdown *)

Lemma Shutdown_body_exec i ok st s :
  Config_Server (cfg st) !! i = Some s ->
  (is_Some (Instance s) -> resolvable s) ->
  exists evs w' ok',
    exec (Shutdown_body env i ok) st = (Val ok', {| cfg := cfg st; world := w' |})
    /\ trace w' = trace (world st) ++ evs
    /\ emits [KTerminateInstances; KLog] evs
    /\ map fst (terminations evs) = live_at i [s]
    /\ ok' = ok && all_clean (terminations evs).
Proof.
  intros Hs Hloc. unfold Shutdown_body. simpl. rewrite Hs. simpl.
  destruct (Instance s) as [inst|] eqn:Hi.
  - destruct Hloc as [r Hr]; [eauto|]. unfold Server_Region. rewrite Hr. simpl.
    destruct (ec2_TerminateInstances env (world st) (Config_auth (cfg st)) r
                [InstanceId inst]) as [e|] eqn:He; simpl.
    + eexists _, _, _. split; [reflexivity|].
      split; [simpl; rewrite <- app_assoc; reflexivity|].
      split; [solve_emits|].
      split; [reflexivity|]. simpl. by rewrite andb_false_r.
    + eexists _, _, _. split; [reflexivity|]. split; [simpl; reflexivity|].
      split; [solve_emits|].
      split; [reflexivity|]. simpl. by rewrite andb_true_r.
  - exists [], (world st), ok. simpl. rewrite andb_true_r, app_nil_r.
    destruct st; split; [done|]. split; [done|]. split; [apply emits_nil|done].
Qed.

Lemma Shutdown_loop_exec l2 : forall l1 ok st,
  Config_Server (cfg st) = l1 ++ l2 ->
  (forall s, s ∈ l2 -> is_Some (Instance s) -> resolvable s) ->
  exists evs w' ok',
    exec (Shutdown_loop env (seq (length l1) (length l2)) ok) st
      = (Val ok', {| cfg := cfg st; world := w' |})
    /\ trace w' = trace (world st) ++ evs
    /\ emits [KTerminateInstances; KLog] evs
    /\ map fst (terminations evs) = live_at (length l1) l2
    /\ ok' = ok && all_clean (terminations evs).
Proof.
  induction l2 as [|s l2 IH]; intros l1 ok st Hc Hloc.
  - exists [], (world st), ok. simpl. rewrite andb_true_r, app_nil_r.
    destruct st; split; [done|]. split; [done|]. split; [apply emits_nil|done].
  - cbn [Shutdown_loop seq length]. rewrite exec_bind.
    destruct (Shutdown_body_exec (length l1) ok st s)
      as (evs1 & w1 & ok1 & E1 & T1 & K1 & L1 & O1).
    { rewrite Hc. by rewrite list_lookup_middle. }
    { intros. apply Hloc; [left|done]. }
    rewrite E1.
    destruct (IH (l1 ++ [s]) ok1 {| cfg := cfg st; world := w1 |})
      as (evs2 & w2 & ok2 & E2 & T2 & K2 & L2 & O2).
    { simpl. rewrite Hc, <- app_assoc. done. }
    { intros. apply Hloc; [by right|done]. }
    rewrite length_app in E2, L2. simpl in E2, L2. rewrite Nat.add_1_r in E2, L2.
    rewrite E2. exists (evs1 ++ evs2), w2, ok2. split; [done|].
    split; [|split; [|split]].
    + rewrite T2. simpl. rewrite T1, app_assoc. done.
    + by apply emits_app.
    + rewrite terminations_app, map_app, L1, L2. simpl. by destruct (Instance s).
    + rewrite terminations_app, all_clean_app, andb_assoc. by subst.
Qed.

Lemma Shutdown_exec st :
  (forall s, s ∈ Config_Server (cfg st) -> is_Some (Instance s) -> resolvable s) ->
  exists evs w' r,
    exec (Shutdown env) st = (Val r, {| cfg := cfg st; world := w' |})
    /\ trace w' = trace (world st) ++ evs
    /\ emits [KTerminateInstances; KLog] evs
    /\ map fst (terminations evs) = live (Config_Server (cfg st))
    /\ r = (if all_clean (terminations evs) then None
            else Some "some instances didn't shut down cleanly").
Proof.
  intros Hloc. unfold Shutdown.
  destruct (Shutdown_loop_exec (Config_Server (cfg st)) [] true st)
    as (evs & w' & ok' & E & T & K & L & O); [done|done|].
  simpl in E. rewrite exec_bind. cbn [getConfig exec]. rewrite exec_bind, E.
  exists evs, w'. simpl in O. subst ok'.
  destruct (all_clean (terminations evs)); eexists; (split; [reflexivity|done]).
Qed.

End Sequential.

(** C7: [Shutdown] asks for the termination of exactly the servers that hold
    an instance, each once and in fleet order, whatever the answers are; a
    server without an instance is passed over without error; the result is an
    error exactly when one of these terminations failed.  (The locations of
    the servers that hold an instance are taken to be in [Locations].) *)
Theorem Shutdown_terminates_every_live_server (env : Env) (st : State) :
  (forall s, s ∈ Config_Server (cfg st) -> is_Some (Instance s) -> resolvable s) ->
  exists evs st' r,
    exec (Shutdown env) st = (Val r, st')
    /\ cfg st' = cfg st
    /\ trace (world st') = trace (world st) ++ evs
    /\ map fst (terminations evs) = live (Config_Server (cfg st))
    /\ (forall i, i ∈ map fst (map fst (terminations evs)) <->
                  exists s, Config_Server (cfg st) !! i = Some s
                            /\ is_Some (Instance s))
    /\ (is_Some r <-> Exists (fun t => is_Some t.2) (terminations evs)).
Proof.
  intros Hloc.
  destruct (Shutdown_exec env st Hloc) as (evs & w' & r & E & T & _ & L & R).
  exists evs, {| cfg := cfg st; world := w' |}, r.
  split; [done|]. split; [done|]. split; [done|]. split; [done|]. split.
  - intros i. rewrite L. rewrite elem_of_map. split.
    + intros ([i' ids] & -> & Hin). apply elem_of_live in Hin as (s & inst & ? & ? & ?).
      exists s. split; [done|]. rewrite H0. by eexists.
    + intros (s & Hs & [inst Hi]). exists (i, [InstanceId inst]). split; [done|].
      apply elem_of_live. by exists s, inst.
  - rewrite <- all_clean_false. subst r.
    destruct (all_clean (terminations evs)); split; done.
Qed.

Lemma Shutdown_terminates_every_live_server_witness :
  exists evs st' r,
    exec (Shutdown (Examples.environment Examples.run_ok (Examples.describe_from 0)
                      (Examples.terminate_but "i-1") Examples.ssh_ok
                      (Examples.config [])))
         (Examples.state Examples.fleet3) = (Val r, st')
    /\ cfg st' = Examples.config Examples.fleet3
    /\ trace (world st') = [] ++ evs
    /\ map fst (terminations evs) = [(0%nat, ["i-1"]); (2%nat, ["i-3"])]
    /\ (forall i, i ∈ map fst (map fst (terminations evs)) <->
                  exists s, Examples.fleet3 !! i = Some s /\ is_Some (Instance s))
    /\ (is_Some r <-> Exists (fun t => is_Some t.2) (terminations evs)).
Proof.
  apply (Shutdown_terminates_every_live_server
           (Examples.environment Examples.run_ok (Examples.describe_from 0)
              (Examples.terminate_but "i-1") Examples.ssh_ok (Examples.config []))
           (Examples.state Examples.fleet3)).
  intros s Hs _. simpl in Hs.
  repeat (apply elem_of_cons in Hs as [->|Hs]); try (by eexists; vm_compute).
  by apply elem_of_nil in Hs.
Defined.

(** *** Creating the instances *)

Section Provisioning.

Variable env : Env.

Lemma runInstance_inv i st o st' :
  exec (runInstance env i) st = (Val o, st') ->
  exists s r resp,
    Config_Server (cfg st) !! i = Some s
    /\ Locations !! Location s = Some r
    /\ world st' = record env (world st)
                     (OpRunInstances i r (runInstance_options (cfg st) s) resp)
    /\ match created resp with
       | Some inst =>
           o = None /\
           cfg st' = set_Server (cfg st)
                       (alter (fun s => set_Instance s inst) i
                              (Config_Server (cfg st)))
       | None => is_Some o /\ cfg st' = cfg st
       end.
Proof.
  unfold runInstance. simpl.
  destruct (Config_Server (cfg st) !! i) as [s|] eqn:Hs; simpl; [|done].
  unfold Server_Region.
  destruct (Locations !! Location s) as [r|] eqn:Hr; simpl; [|done].
  intros H. exists s, r.
  change {| opt_ImageId := ImageID s; opt_InstanceType := Size s;
            opt_KeyName := Config_KeyName (cfg st) |}
    with (runInstance_options (cfg st) s) in H.
  set (resp := ec2_RunInstances env (world st) (Config_auth (cfg st)) r
                 (runInstance_options (cfg st) s)) in H.
  exists resp. split; [done|]. split; [done|].
  destruct resp as [e|[|inst [|inst' l]]]; simpl in H;
    injection H as <- <-; simpl; eauto.
Qed.

Lemma Server_spec_set_Instance s inst :
  Server_spec (set_Instance s inst) = Server_spec s.
Proof. reflexivity. Qed.

Lemma Config_spec_alter c i inst :
  Config_spec (set_Server c (alter (fun s => set_Instance s inst) i (Config_Server c)))
  = Config_spec c.
Proof.
  unfold Config_spec, set_Server. simpl. f_equal.
  change (Server_spec <$> alter (fun s => set_Instance s inst) i (Config_Server c)
          = Server_spec <$> Config_Server c).
  rewrite (list_fmap_alter Server_spec (fun s => set_Instance s inst) id).
  - by apply list_alter_id.
  - by apply Forall_forall.
Qed.

Lemma Config_spec_length c c' :
  Config_spec c = Config_spec c' ->
  length (Config_Server c) = length (Config_Server c').
Proof.
  intros H. apply (f_equal Config_Server) in H. simpl in H.
  apply (f_equal length) in H. by rewrite !length_map in H.
Qed.

Lemma Run_loop_app l1 : forall l2 st,
  exec (Run_loop env (l1 ++ l2)) st =
  match exec (Run_loop env l1) st with
  | (Val None, st1) => exec (Run_loop env l2) st1
  | other => other
  end.
Proof.
  induction l1 as [|i l1 IH]; intros l2 st; [done|].
  cbn [Run_loop app]. rewrite !exec_bind.
  destruct (exec (runInstance env i) st) as [[[e|]| |] st1]; try done.
  rewrite !exec_bind.
  destruct (exec (log_Println env ("run: " +:+ e)) st1) as [[[]| |] st2]; try done.
  rewrite !exec_bind.
  destruct (exec (log_Println env "trying to shut down") st2) as [[[]| |] st3];
    try done.
  rewrite !exec_bind.
  by destruct (exec (Shutdown env) st3) as [[r| |] st4].
Qed.

Lemma Run_loop_fail i ns st e st_f :
  exec (runInstance env i) st = (Val (Some e), st_f) ->
  exec (Run_loop env (i :: ns)) st =
  match exec (Shutdown env)
          {| cfg := cfg st_f;
             world := record env (record env (world st_f) (OpLog ("run: " +:+ e)))
                        (OpLog "trying to shut down") |} with
  | (Val r, s) => (Val (Some r), s)
  | (Crashed m, s) => (Crashed m, s)
  | (Diverged, s) => (Diverged, s)
  end.
Proof.
  intros H. cbn [Run_loop]. rewrite exec_bind, H.
  unfold log_Println, on_world. cbn. rewrite exec_bind.
  by destruct (exec (Shutdown env) _) as [[r| |] s].
Qed.

Lemma Run_loop_ok m : forall a st st',
  exec (Run_loop env (seq a m)) st = (Val None, st') ->
  exists evs, Provisioned a m st st' evs.
Proof.
  induction m as [|m IH]; intros a st st' H.
  - simpl in H. injection H as <-. exists []. unfold Provisioned.
    rewrite app_nil_r. repeat split; try done.
    intros i s Hs. destruct (decide _); [lia|done].
  - cbn [seq Run_loop] in H. rewrite exec_bind in H.
    destruct (exec (runInstance env a) st) as [[[e|]| |] st1] eqn:E1; try done.
    { rewrite !exec_bind in H.
      destruct (exec (log_Println env _) st1) as [[[]| |] st2]; try done.
      rewrite !exec_bind in H.
      destruct (exec (log_Println env _) st2) as [[[]| |] st3]; try done.
      rewrite !exec_bind in H.
      by destruct (exec (Shutdown env) st3) as [[r| |] st4]. }
    apply runInstance_inv in E1 as (s & r & resp & Hs & Hr & Hw & Hc).
    destruct (created resp) as [inst|] eqn:Hcr; [|by destruct Hc as [[? ?] _]].
    destruct Hc as [_ Hc].
    apply IH in H as (evs & T & Rq & Ok & Tm & Sp & Sv).
    exists ({| ev_time := now (world st);
               ev_op := OpRunInstances a r (runInstance_options (cfg st) s) resp |}
            :: evs).
    unfold Provisioned. split; [|split; [|split; [|split; [|split]]]].
    + rewrite T, Hw. rewrite record_trace, <- app_assoc. done.
    + simpl. by rewrite Rq.
    + change (Forall (fun x => is_Some (created x.2))
                ((a, resp) :: run_requests evs)).
      constructor; [|done]. change (is_Some (created resp)). by rewrite Hcr.
    + done.
    + rewrite Sp, Hc. apply Config_spec_alter.
    + intros i s0 Hs0. rewrite Hc in Sv. simpl in Sv.
      destruct (decide (i = a)) as [->|Hne].
      * rewrite decide_True by lia.
        specialize (Sv a (set_Instance s inst)).
        rewrite list_lookup_alter_eq, Hs in Sv. simpl in Sv.
        specialize (Sv eq_refl). rewrite decide_False in Sv by lia.
        assert (s0 = s) as -> by congruence.
        split; [by exists r|]. by exists inst.
      * specialize (Sv i s0). rewrite list_lookup_alter_ne in Sv by done.
        specialize (Sv Hs0). repeat case_decide; (done || lia).
Qed.

End Provisioning.

(** *** The command line *)

Section Main.

Variable env : Env.

Lemma main_run stateFile configFile rest sched n w :
  configFile <> "" ->
  main env stateFile ("run" :: configFile :: rest) sched n w
  = main_verb env stateFile "run" configFile ("run" :: configFile :: rest) sched n w.
Proof.
  intros Hne. unfold main, flag_Arg. simpl.
  apply String.eqb_neq in Hne. by rewrite Hne.
Qed.

Lemma Config_Write_exec stateFile st :
  exists o w', exec (Config_Write env stateFile) st
               = (Val o, {| cfg := cfg st; world := w' |}).
Proof.
  unfold Config_Write. simpl.
  destruct (json_MarshalIndent env (cfg st)); simpl; eauto.
  destruct st; eauto.
Qed.

(** The exit status of [run] once the configuration is read: 0 exactly when
    [Run] returns no error and the state is written. *)
Lemma main_run_status stateFile configFile rest sched n w st r st' :
  configFile <> "" ->
  ReadConfig env configFile w = (inr (cfg st), world st) ->
  Run env sched n st = (Val r, st') ->
  (main env stateFile ("run" :: configFile :: rest) sched n w).1 = Val 0 <->
  r = None /\ (exec (Config_Write env stateFile) st').1 = Val None.
Proof.
  intros Hne Hread Hrun. rewrite main_run by done. unfold main_verb.
  rewrite Hread. unfold main_switch. cbv beta iota zeta.
  change ("run" =? "run")%string with true. cbv iota.
  destruct st as [c w1]. cbn [cfg world] in *. rewrite Hrun.
  destruct r as [e|]; cbv beta iota zeta.
  - unfold log_Fatal. cbn [fst]. split; [intros [=]|intros [[=] _]].
  - destruct (exec (Config_Write env stateFile) st') as [[[e|]| |] st2];
      unfold log_Fatal; cbn [fst];
      (split; [intros [=]; try done|intros [_ [=]]; try done]).
Qed.

End Main.

(** C1, as the program has it: when the creation of the instances succeeds
    for the first [k] servers and fails for the next, [Run] has asked for the
    creations one after the other in the order of the fleet and for none
    beyond the failed one; it then asks for the termination of every server
    that holds an instance (the [k] servers just provisioned, and the later
    ones that held an instance when [Run] began), and returns what [Shutdown]
    returns: an error exactly when a termination failed.  The command exits
    with status 0 exactly when that result is no error and the state is
    written. *)
Theorem Run_rolls_back_on_failure (env : Env) (sched : list nat) (n : nat)
    (st : State) (k : nat) (e : Err) (st_k st_f : State) :
  (k < length (Config_Server (cfg st)))%nat ->
  exec (Run_loop env (seq 0 k)) st = (Val None, st_k) ->
  exec (runInstance env k) st_k = (Val (Some e), st_f) ->
  (forall i s, Config_Server (cfg st) !! i = Some s -> (k <= i)%nat ->
               is_Some (Instance s) -> resolvable s) ->
  exists evs1 evs2 st' r,
    Run env sched n st = (Val r, st')
    /\ trace (world st') = trace (world st) ++ evs1 ++ evs2
    /\ map fst (run_requests evs1) = seq 0 (S k)
    /\ (forall i resp, (i, resp) ∈ run_requests evs1 ->
                       (is_Some (created resp) <-> (i < k)%nat))
    /\ terminations evs1 = [] /\ run_requests evs2 = []
    /\ map fst (terminations evs2) = live (Config_Server (cfg st'))
    /\ (forall i, i ∈ map fst (map fst (terminations evs2)) <->
          (i < k)%nat \/
          ((k <= i)%nat /\ exists s, Config_Server (cfg st) !! i = Some s
                                    /\ is_Some (Instance s)))
    /\ (is_Some r <-> Exists (fun t => is_Some t.2) (terminations evs2))
    /\ (forall stateFile configFile w,
          configFile <> "" ->
          ReadConfig env configFile w = (inr (cfg st), world st) ->
          ((main env stateFile ["run"; configFile] sched n w).1 = Val 0 <->
           r = None /\ (exec (Config_Write env stateFile) st').1 = Val None)).
Proof.
  intros Hk Hloop Hfail Hloc.
  destruct (Run_loop_ok env _ _ _ _ Hloop) as (evs0 & T0 & Rq0 & Ok0 & Tm0 & Sp0 & Sv0).
  destruct (runInstance_inv env _ _ _ _ Hfail)
    as (sk & rk & resp & Hsk & Hrk & Hw & Hc).
  destruct (created resp) as [inst|] eqn:Hcr; [by destruct Hc|].
  destruct Hc as [_ Hc].
  set (st3 := {| cfg := cfg st_f;
                 world := record env (record env (world st_f) (OpLog ("run: " +:+ e)))
                            (OpLog "trying to shut down") |}).
  assert (Hlen : length (Config_Server (cfg st_k)) = length (Config_Server (cfg st)))
    by (by apply Config_spec_length).
  destruct (Shutdown_exec env st3) as (evs2 & w' & r & E & T & K & L & R).
  { intros s Hs Hi. simpl in Hs. rewrite Hc in Hs.
    apply list_elem_of_lookup in Hs as [i Hs].
    assert (Hi0 : is_Some (Config_Server (cfg st) !! i)).
    { apply lookup_lt_is_Some. rewrite <- Hlen. by eapply lookup_lt_Some. }
    destruct Hi0 as [s0 Hs0]. specialize (Sv0 i s0 Hs0).
    case_decide as Hd.
    - destruct Sv0 as [Hres [inst Hs']]. rewrite Hs in Hs'. by injection Hs' as ->.
    - rewrite Hs in Sv0. injection Sv0 as ->. apply (Hloc i s0); [done|lia|done]. }
  set (ek := {| ev_time := now (world st_k);
                ev_op := OpRunInstances k rk (runInstance_options (cfg st_k) sk) resp |}).
  exists (evs0 ++ [ek]),
         ({| ev_time := now (world st_f); ev_op := OpLog ("run: " +:+ e) |}
          :: {| ev_time := now (record env (world st_f) (OpLog ("run: " +:+ e)));
                ev_op := OpLog "trying to shut down" |} :: evs2),
         {| cfg := cfg st3; world := w' |}, r.
  assert (Hrun : Run env sched n st = (Val r, {| cfg := cfg st3; world := w' |})).
  { unfold Run.
    replace (length (Config_Server (cfg st)))
      with (k + S (length (Config_Server (cfg st)) - S k))%nat by lia.
    rewrite seq_app, Run_loop_app, Hloop. cbn [seq Nat.add].
    rewrite (Run_loop_fail env _ _ _ _ _ Hfail). fold st3. by rewrite E. }
  split; [done|]. split.
  { simpl. rewrite T. simpl. rewrite Hw, record_trace, T0.
    rewrite <- !app_assoc. done. }
  split.
  { rewrite run_requests_app, map_app, Rq0. by rewrite seq_S. }
  split.
  { intros i resp'. rewrite run_requests_app, elem_of_app.
    assert (Hin0 : (i, resp') ∈ run_requests evs0 -> (i < k)%nat).
    { intros Hin. assert (Hi : i ∈ map fst (run_requests evs0))
        by (apply elem_of_map; by exists (i, resp')).
      rewrite Rq0 in Hi. apply elem_of_seq in Hi. lia. }
    intros [Hin|Hin].
    - split; [auto|]. intros _.
      by apply (proj1 (Forall_forall _ _) Ok0 (i, resp')).
    - apply list_elem_of_singleton in Hin. injection Hin as -> ->.
      rewrite Hcr. split; [by intros [? ?]|lia]. }
  split.
  { rewrite terminations_app, Tm0. done. }
  split.
  { change (run_requests evs2 = []).
    eapply emits_no_run_requests; [|exact K]. solve_not_elem. }
  split; [exact L|]. split.
  { intros i. change (terminations (_ :: _ :: evs2)) with (terminations evs2).
    rewrite L. simpl. rewrite Hc. rewrite elem_of_map. split.
    - intros ([i' ids] & -> & Hin).
      apply elem_of_live in Hin as (s & inst & Hs & Hi & _). simpl.
      destruct (decide (i' < k)%nat); [by left|right]. split; [lia|].
      assert (Hi0 : is_Some (Config_Server (cfg st) !! i')).
      { apply lookup_lt_is_Some. rewrite <- Hlen. by eapply lookup_lt_Some. }
      destruct Hi0 as [s0 Hs0]. specialize (Sv0 i' s0 Hs0).
      rewrite decide_False in Sv0 by lia. exists s0. split; [done|].
      rewrite Hs in Sv0. injection Sv0 as <-. by rewrite Hi.
    - intros [Hlt|(Hge & s0 & Hs0 & [inst Hi])].
      + assert (Hi0 : is_Some (Config_Server (cfg st) !! i))
          by (apply lookup_lt_is_Some; lia).
        destruct Hi0 as [s0 Hs0]. specialize (Sv0 i s0 Hs0).
        rewrite decide_True in Sv0 by lia. destruct Sv0 as [_ [inst Hs]].
        exists (i, [InstanceId inst]). split; [done|].
        apply elem_of_live. by exists (set_Instance s0 inst), inst.
      + specialize (Sv0 i s0 Hs0). rewrite decide_False in Sv0 by lia.
        exists (i, [InstanceId inst]). split; [done|].
        apply elem_of_live. by exists s0, inst. }
  split.
  { change (terminations (_ :: _ :: evs2)) with (terminations evs2).
    rewrite <- all_clean_false. subst r.
    destruct (all_clean (terminations evs2)); split; done. }
  intros stateFile configFile w Hne Hread.
  by apply (main_run_status env stateFile configFile [] sched n w st).
Qed.

Lemma Run_rolls_back_on_failure_witness :
  exists st_k st_f,
    exec (Run_loop Examples.quota1 (seq 0 1)) (Examples.state Examples.fresh3)
      = (Val None, st_k)
    /\ exec (runInstance Examples.quota1 1) st_k
      = (Val (Some "InstanceLimitExceeded"), st_f)
    /\ exists evs1 evs2 st' r,
         Run Examples.quota1 [] 24 (Examples.state Examples.fresh3) = (Val r, st')
         /\ map fst (run_requests evs1) = [0%nat; 1%nat]
         /\ map fst (terminations evs2) = live (Config_Server (cfg st'))
         /\ (forall i, i ∈ map fst (map fst (terminations evs2)) <->
               (i < 1)%nat \/
               ((1 <= i)%nat /\
                exists s, Examples.fresh3 !! i = Some s /\ is_Some (Instance s)))
         /\ (is_Some r <-> Exists (fun t => is_Some t.2) (terminations evs2)).
Proof.
  eexists _, _. split; [reflexivity|]. split; [reflexivity|].
  edestruct (Run_rolls_back_on_failure Examples.quota1 [] 24
               (Examples.state Examples.fresh3) 1 "InstanceLimitExceeded")
    as (evs1 & evs2 & st' & r & HR & _ & Hreq & _ & _ & _ & Hlive & Hwho & Hres & _).
  - simpl. lia.
  - reflexivity.
  - reflexivity.
  - intros [|[|[|i]]] s; simpl; intros [= <-] _ [? ?]; done.
  - exists evs1, evs2, st', r. repeat split; try done; by apply Hwho || by apply Hres.
Defined.

(** C1 fails as stated: the creation of the only instance is refused, no
    instance is left to terminate, [Shutdown] returns no error, and the
    command writes the state and exits with status 0. *)
Lemma Run_failure_exit_status_counterexample :
  Examples.quota0_run.1 = Val 0
  /\ run_requests (trace Examples.quota0_run.2)
     = [(0%nat, inl "InstanceLimitExceeded")]
  /\ terminations (trace Examples.quota0_run.2) = []
  /\ map ev_op (trace Examples.quota0_run.2) =
       [OpReadFile "config.json" (inr "{}");
        OpRunInstances 0 APNortheast
          {| opt_ImageId := "ami-1"; opt_InstanceType := "t1.micro";
             opt_KeyName := "key" |} (inl "InstanceLimitExceeded");
        OpLog "run: InstanceLimitExceeded";
        OpLog "trying to shut down";
        OpWriteFile "state.json" "{}" None].
Proof. vm_compute. repeat split. Qed.

(** ** What every step keeps *)

Lemma Frame_refl ks st : Frame ks st st.
Proof.
  split; [done|]. split; [lia|]. exists []. split; [by rewrite app_nil_r|].
  apply emits_nil.
Qed.

Lemma Frame_trans ks st1 st2 st3 :
  Frame ks st1 st2 -> Frame ks st2 st3 -> Frame ks st1 st3.
Proof.
  intros (C1 & N1 & evs1 & T1 & K1) (C2 & N2 & evs2 & T2 & K2).
  split; [congruence|]. split; [lia|]. exists (evs1 ++ evs2).
  split; [by rewrite T2, T1, app_assoc|by apply emits_app].
Qed.

Lemma Frame_mono ks ks' st st' : ks ⊆ ks' -> Frame ks st st' -> Frame ks' st st'.
Proof.
  intros Hs (C & N & evs & T & K). split; [done|]. split; [done|].
  exists evs. split; [done|]. by eapply emits_mono.
Qed.

Section Always.

Variable G : State -> State -> Prop.
Hypothesis G_refl : forall st, G st st.
Hypothesis G_trans : forall st1 st2 st3, G st1 st2 -> G st2 st3 -> G st1 st3.

Lemma always_bind {A B : Type} (p : Prog A) (g : A -> Prog B) :
  always G p -> (forall a, always G (g a)) -> always G (bind p g).
Proof.
  intros Hp Hg. induction p as [a|m| |X f k IH]; simpl; try done.
  destruct Hp as [Hf Hk]. split; [done|]. intros x. by apply IH.
Qed.

Lemma always_exec {A : Type} (p : Prog A) : forall st,
  always G p -> G st (exec p st).2.
Proof.
  induction p as [a|m| |X f k IH]; intros st Hp; simpl; try done.
  destruct Hp as [Hf Hk]. specialize (Hf st).
  destruct (f st) as [x st1]. simpl in Hf.
  eapply G_trans; [exact Hf|]. by apply IH.
Qed.

Lemma always_drain {A : Type} (ws : Pool A) : forall i st rcv,
  pool_always G ws -> G st (drain i ws st rcv).2.
Proof.
  induction ws as [|[p|] ws IH]; intros i st rcv Hws; simpl; [done| |].
  - assert (Hp : G st (exec p st).2) by (apply always_exec, Hws; left).
    destruct (exec p st) as [[a|m|] st1]; simpl in *; try done.
    eapply G_trans; [exact Hp|]. apply IH. intros q Hq. apply Hws. by right.
  - apply IH. intros q Hq. apply Hws. by right.
Qed.

Lemma pool_always_insert {A : Type} (ws : Pool A) i o :
  pool_always G ws -> (forall p, o = Some p -> always G p) ->
  pool_always G (<[i := o]> ws).
Proof.
  intros Hws Ho p Hp. apply list_elem_of_lookup in Hp as [j Hj].
  destruct (decide (i = j)) as [->|Hne].
  - apply list_lookup_insert_Some in Hj as [(_ & -> & _)|[? _]]; [|done].
    by apply Ho.
  - rewrite list_lookup_insert_ne in Hj by done.
    apply Hws, list_elem_of_lookup. by exists j.
Qed.

Lemma always_fanout {A : Type} (sched : list nat) : forall (ws : Pool A) st rcv,
  pool_always G ws -> G st (fanout sched ws st rcv).2.
Proof.
  induction sched as [|i sched IH]; intros ws st rcv Hws; simpl.
  - by apply always_drain.
  - destruct (ws !! i) as [[[a|m| |X f k]|]|] eqn:Hi; try by apply IH.
    + apply IH. apply pool_always_insert; [done|]. intros p [=].
    + done.
    + assert (Hp : always G (Act f k)).
      { apply Hws, list_elem_of_lookup. by exists i. }
      destruct Hp as [Hf Hk]. specialize (Hf st).
      destruct (f st) as [x st1]. simpl in Hf.
      eapply G_trans; [exact Hf|]. apply IH.
      apply pool_always_insert; [done|]. intros p [= <-]. apply Hk.
Qed.

Lemma always_go_all {A : Type} (sched : list nat) (worker : nat -> Prog A) st :
  (forall i, always G (worker i)) -> G st (go_all sched worker st).2.
Proof.
  intros Hw. apply always_fanout. intros p Hp.
  apply elem_of_map in Hp as (i & [= ->] & _). apply Hw.
Qed.

End Always.

Lemma always_mono {A : Type} (G G' : State -> State -> Prop) (p : Prog A) :
  (forall st st', G st st' -> G' st st') -> always G p -> always G' p.
Proof.
  intros HG. induction p as [a|m| |X f k IH]; simpl; try done.
  intros [Hf Hk]. split; [by intros st; apply HG|]. intros x. by apply IH.
Qed.

(** *** The steps of the program *)

Ltac frame_step :=
  let st := fresh "st" in
  intros st; unfold Frame, record; cbn;
  split; [first [reflexivity | apply Config_spec_alter]|];
  split; [lia|];
  first [ exists []; split; [by rewrite app_nil_r | apply emits_nil]
        | eexists [_]; split; [reflexivity|];
          apply Forall_cons; split; [simpl; assumption | apply Forall_nil] ].

Ltac always_tac :=
  repeat first
    [ exact I
    | assumption
    | match goal with
      | |- always _ (bind _ _) => apply always_bind
      | |- always _ (match ?x with _ => _ end) => destruct x
      | |- always _ (if ?b then _ else _) => destruct b
      | |- always _ (Act _ _) => split
      | |- forall _ : State, Frame _ _ _ => frame_step
      | |- forall _, always _ _ => intro
      | |- forall _, _ -> _ => intro
      end ].

Section Steps.

Variable env : Env.
Variable ks : list OpKind.

Lemma always_log_Println msg :
  KLog ∈ ks -> always (Frame ks) (log_Println env msg).
Proof. intros ?. unfold log_Println, on_world. always_tac. Qed.

Lemma always_getServer i : always (Frame ks) (getServer i).
Proof. unfold getServer. always_tac. Qed.

Lemma always_runInstance i :
  KRunInstances ∈ ks -> always (Frame ks) (runInstance env i).
Proof.
  intros ?. unfold runInstance, getConfig, getServer, Server_Region, setInstance,
    on_world. always_tac.
Qed.

Lemma always_getInstance i :
  KInstances ∈ ks -> always (Frame ks) (getInstance env i).
Proof.
  intros ?. unfold getInstance, getConfig, getServer, Server_Region, setInstance,
    on_world. always_tac.
Qed.

Lemma always_time_Sleep i d :
  KSleep ∈ ks -> always (Frame ks) (time_Sleep env i d).
Proof. intros ?. unfold time_Sleep. always_tac. Qed.

Lemma always_waitReady_loop n i : forall deadline,
  KInstances ∈ ks -> KSleep ∈ ks ->
  always (Frame ks) (waitReady_loop env n i deadline).
Proof.
  intros deadline ? ?. induction n as [|n IH]; cbn [waitReady_loop];
    unfold time_Now; always_tac;
    auto using always_getInstance, always_time_Sleep.
Qed.

Lemma always_waitReady n i :
  KInstances ∈ ks -> KSleep ∈ ks -> always (Frame ks) (waitReady env n i).
Proof.
  intros ? ?. unfold waitReady, time_Now. always_tac;
    auto using always_waitReady_loop.
Qed.

Lemma always_Run_worker n i :
  KInstances ∈ ks -> KSleep ∈ ks -> KLog ∈ ks ->
  always (Frame ks) (Run_worker env n i).
Proof.
  intros ? ? ?. unfold Run_worker. always_tac;
    auto using always_waitReady, always_getServer, always_log_Println.
Qed.

Lemma always_Shutdown_body i ok :
  KTerminateInstances ∈ ks -> KLog ∈ ks ->
  always (Frame ks) (Shutdown_body env i ok).
Proof.
  intros ? ?. unfold Shutdown_body, getConfig, getServer, Server_Region, on_world.
  always_tac; auto using always_log_Println.
Qed.

Lemma always_Shutdown_loop ns : forall ok,
  KTerminateInstances ∈ ks -> KLog ∈ ks ->
  always (Frame ks) (Shutdown_loop env ns ok).
Proof.
  intros ok ? ?. revert ok. induction ns as [|i ns IH]; intros ok;
    cbn [Shutdown_loop]; always_tac; auto using always_Shutdown_body.
Qed.

Lemma always_Shutdown :
  KTerminateInstances ∈ ks -> KLog ∈ ks -> always (Frame ks) (Shutdown env).
Proof.
  intros ? ?. unfold Shutdown, getConfig. always_tac;
    auto using always_Shutdown_loop.
Qed.

Lemma always_Run_loop ns :
  KRunInstances ∈ ks -> KTerminateInstances ∈ ks -> KLog ∈ ks ->
  always (Frame ks) (Run_loop env ns).
Proof.
  intros ? ? ?. induction ns as [|i ns IH]; cbn [Run_loop]; always_tac;
    auto using always_runInstance, always_log_Println, always_Shutdown.
Qed.

Lemma always_sshCommand i command stdin :
  KSsh ∈ ks -> KLog ∈ ks -> always (Frame ks) (sshCommand env i command stdin).
Proof.
  intros ? ?. unfold sshCommand, getServer, on_world. always_tac;
    auto using always_log_Println.
Qed.

Lemma always_setupInstance i :
  KSsh ∈ ks -> KLog ∈ ks -> always (Frame ks) (setupInstance env i).
Proof.
  intros ? ?. unfold setupInstance, getConfig, getServer. always_tac;
    auto using always_sshCommand.
Qed.

Lemma always_Setup_worker i :
  KSsh ∈ ks -> KLog ∈ ks -> always (Frame ks) (Setup_worker env i).
Proof.
  intros ? ?. unfold Setup_worker. always_tac;
    auto using always_setupInstance, always_getServer, always_log_Println.
Qed.

Lemma always_writePlaylist_loop c mount ext t l :
  KCreate ∈ ks -> KWrite ∈ ks -> KClose ∈ ks ->
  always (Frame ks) (writePlaylist_loop env c mount ext t l).
Proof.
  intros ? ? ?. induction l as [|[i s] l IH]; cbn [writePlaylist_loop];
    unfold on_world; always_tac.
Qed.

Lemma always_writePlaylist mount ext t :
  KCreate ∈ ks -> KWrite ∈ ks -> KClose ∈ ks ->
  always (Frame ks) (writePlaylist env mount ext t).
Proof.
  intros ? ? ?. unfold writePlaylist, getConfig. always_tac;
    auto using always_writePlaylist_loop.
Qed.

Lemma always_Playlist mount :
  KCreate ∈ ks -> KWrite ∈ ks -> KClose ∈ ks ->
  always (Frame ks) (Playlist env mount).
Proof.
  intros ? ? ?. induction mount as [|m mount IH]; cbn [Playlist]; always_tac;
    auto using always_writePlaylist.
Qed.

Lemma always_Config_Write filename :
  KWriteFile ∈ ks -> always (Frame ks) (Config_Write env filename).
Proof. intros ?. unfold Config_Write, getConfig, on_world. always_tac. Qed.

End Steps.

(** *** The verbs *)

Lemma emits_no_state_writes ks evs :
  KWriteFile ∉ ks -> emits ks evs -> state_writes evs = [].
Proof.
  intros Hk. induction 1 as [|e evs He _ IH]; [done|].
  unfold state_writes. cbn [omap list_omap]. fold (state_writes evs).
  rewrite IH. unfold state_write. destruct (ev_op e); done.
Qed.

Lemma state_writes_app evs1 evs2 :
  state_writes (evs1 ++ evs2) = state_writes evs1 ++ state_writes evs2.
Proof. apply omap_app. Qed.

Lemma Config_spec_same c c' :
  Config_spec c = Config_spec c' -> same_specification c c'.
Proof.
  intros H. unfold same_specification.
  split; [exact (f_equal Config_KeyName H)|].
  split; [exact (f_equal Config_Icecast H)|].
  split; [exact (f_equal Config_auth H)|].
  apply (f_equal Config_Server) in H. simpl in H.
  revert H. generalize (Config_Server c'). induction (Config_Server c) as [|s l IH];
    intros [|s' l'] H; simpl in H; try discriminate H.
  { constructor. }
  injection H as ? ? ? ? ? ? ? ? Hl. constructor; [|by apply IH].
  unfold same_user_fields. done.
Qed.

Section Verbs.

Variable env : Env.

Lemma Run_frame sched n st :
  Frame [KRunInstances; KInstances; KTerminateInstances; KSleep; KLog] st
    (Run env sched n st).2.
Proof.
  set (ks := [KRunInstances; KInstances; KTerminateInstances; KSleep; KLog]).
  unfold Run.
  pose proof (always_exec (Frame ks) (Frame_refl ks) (Frame_trans ks)
                (Run_loop env (seq 0 (length (Config_Server (cfg st))))) st) as H1.
  destruct (exec (Run_loop env _) st) as [[[r|]|m|] st1]; simpl in *;
    try (apply H1, always_Run_loop; solve_emits).
  pose proof (always_go_all (Frame ks) (Frame_refl ks) (Frame_trans ks) sched (Run_worker env n) st1)
    as H2.
  assert (Frame ks st st1) by (apply H1, always_Run_loop; solve_emits).
  assert (Frame ks st1 (go_all sched (Run_worker env n) st1).2).
  { apply H2. intros i. apply always_Run_worker; solve_emits. }
  destruct (go_all sched (Run_worker env n) st1) as [[rcv|m|] st2]; simpl in *;
    by eapply Frame_trans.
Qed.

Lemma Setup_frame sched st : Frame [KSsh; KLog] st (Setup env sched st).2.
Proof.
  unfold Setup.
  pose proof (always_go_all (Frame [KSsh; KLog]) (Frame_refl _) (Frame_trans _) sched
                (Setup_worker env) st) as H.
  destruct (go_all sched (Setup_worker env) st) as [[rcv|m|] st1]; simpl in *;
    apply H; intros i; apply always_Setup_worker; solve_emits.
Qed.

Lemma main_switch_frame verb args sched n st :
  Frame verb_kinds st (main_switch env verb args sched n st).2.
Proof.
  unfold main_switch.
  destruct (verb =? "run")%string.
  { eapply Frame_mono; [|apply Run_frame].
    intros k Hk. repeat (apply elem_of_cons in Hk as [->|Hk]); solve_emits.
    by apply elem_of_nil in Hk. }
  destruct (verb =? "setup")%string.
  { eapply Frame_mono; [|apply Setup_frame].
    intros k Hk. repeat (apply elem_of_cons in Hk as [->|Hk]); solve_emits.
    by apply elem_of_nil in Hk. }
  destruct (verb =? "playlist")%string.
  { apply always_exec; [apply Frame_refl|apply Frame_trans|]. apply always_Playlist; solve_emits. }
  destruct (verb =? "shutdown")%string.
  { apply always_exec; [apply Frame_refl|apply Frame_trans|]. apply always_Shutdown; solve_emits. }
  apply Frame_refl.
Qed.

Lemma main_other stateFile verb rest sched n w :
  verb <> "" -> verb <> "run" ->
  main env stateFile (verb :: rest) sched n w
  = main_verb env stateFile verb stateFile (verb :: rest) sched n w.
Proof.
  intros H1 H2. unfold main, flag_Arg. simpl.
  apply String.eqb_neq in H1, H2. by rewrite H1, H2.
Qed.

Lemma ReadConfig_trace filename w x w1 :
  ReadConfig env filename w = (x, w1) ->
  exists resp, w1 = record env w (OpReadFile filename resp).
Proof.
  unfold ReadConfig. intros H. exists (ioutil_ReadFile env w filename).
  destruct (ioutil_ReadFile env w filename) as [e|b]; [by injection H|].
  destruct (json_Unmarshal env b) as [e|c]; [by injection H|].
  destruct (aws_EnvAuth env _) as [e|a]; by injection H.
Qed.

End Verbs.

(** C9: no operation changes what the user wrote.  Whatever the schedule,
    the answers of the environment and the outcome, the configuration after
    [Run], [Setup], [Shutdown] and [Playlist] has the key name, the
    credentials and, server by server, the name, kind, location, login,
    image, size and limits it had before: the instances alone may differ. *)
Theorem operations_keep_the_specification (env : Env) (sched : list nat)
    (n : nat) (mount : list string) (st : State) :
  same_specification (cfg st) (cfg (Run env sched n st).2)
  /\ same_specification (cfg st) (cfg (Setup env sched st).2)
  /\ same_specification (cfg st) (cfg (exec (Shutdown env) st).2)
  /\ same_specification (cfg st) (cfg (exec (Playlist env mount) st).2).
Proof.
  split; [|split; [|split]]; apply Config_spec_same; symmetry.
  - apply (Run_frame env sched n st).
  - apply (Setup_frame env sched st).
  - apply (always_exec (Frame [KTerminateInstances; KLog]) (Frame_refl _) (Frame_trans _)).
    apply always_Shutdown; solve_emits.
  - apply (always_exec (Frame [KCreate; KWrite; KClose]) (Frame_refl _) (Frame_trans _)).
    apply always_Playlist; solve_emits.
Qed.

(** C2, as the program has it: in an invocation of one of the four verbs
    whose configuration is read, the state is written at the end only when
    the verb returns no error; when it returns one, the process logs it and
    exits with status 1 without a write of the state file.  (The verb itself
    never writes the state file.) *)
Theorem state_written_only_on_success (env : Env) (stateFile verb : string)
    (rest : list string) (sched : list nat) (n : nat) (w : World)
    (c : Config) (w1 : World) (r : option Err) (st1 : State) :
  verb ∈ ["run"; "setup"; "playlist"; "shutdown"] ->
  (verb = "run" -> flag_Arg rest 0 <> "") ->
  ReadConfig env (if (verb =? "run")%string then flag_Arg rest 0 else stateFile) w
    = (inr c, w1) ->
  main_switch env verb (verb :: rest) sched n {| cfg := c; world := w1 |}
    = (Val r, st1) ->
  exists evs,
    trace (main env stateFile (verb :: rest) sched n w).2 = trace w ++ evs
    /\ state_writes evs =
         match r, json_MarshalIndent env (cfg st1) with
         | None, inr b => [(stateFile, b)]
         | _, _ => []
         end
    /\ (forall e, r = Some e ->
          main env stateFile (verb :: rest) sched n w
          = (Val 1, record env (world st1) (OpLog e))).
Proof.
  intros Hverb Hcfg Hread Hsw.
  assert (Hmain : main env stateFile (verb :: rest) sched n w
                  = main_verb env stateFile verb
                      (if (verb =? "run")%string then flag_Arg rest 0 else stateFile)
                      (verb :: rest) sched n w).
  { destruct (decide (verb = "run")) as [->|Hne].
    - destruct rest as [|configFile rest'].
      + by destruct (Hcfg eq_refl).
      + change (flag_Arg (configFile :: rest') 0) with configFile in *.
        simpl. apply main_run. by apply Hcfg.
    - assert ((verb =? "run")%string = false) as -> by by apply String.eqb_neq.
      apply main_other; [|done]. intros ->.
      repeat (apply elem_of_cons in Hverb as [Hverb|Hverb]; [done|]).
      by apply elem_of_nil in Hverb. }
  rewrite Hmain. unfold main_verb. rewrite Hread, Hsw.
  destruct (ReadConfig_trace env _ _ _ _ Hread) as [resp Hw1].
  pose proof (main_switch_frame env verb (verb :: rest) sched n
                {| cfg := c; world := w1 |}) as HF.
  rewrite Hsw in HF. destruct HF as (_ & _ & evs & T & K). simpl in T.
  rewrite Hw1, record_trace in T.
  assert (Hnone : state_writes evs = []).
  { eapply emits_no_state_writes; [|exact K]. unfold verb_kinds. solve_not_elem. }
  destruct r as [e|].
  - eexists. split; [|split].
    + unfold log_Fatal. simpl. rewrite T, <- !app_assoc. reflexivity.
    + rewrite !state_writes_app, Hnone. reflexivity.
    + by intros e' [= <-].
  - unfold Config_Write. cbn [getConfig bind exec].
    destruct (json_MarshalIndent env (cfg st1)) as [e|b].
    + eexists. split; [|split]; [| |done].
      * unfold log_Fatal. simpl. rewrite T, <- !app_assoc. reflexivity.
      * rewrite !state_writes_app, Hnone. reflexivity.
    + unfold on_world. cbn.
      destruct (ioutil_WriteFile env (world st1) stateFile b) as [e|];
        (eexists; split; [|split]; [| |done]).
      * unfold log_Fatal. simpl. rewrite T, <- !app_assoc. reflexivity.
      * rewrite !state_writes_app, Hnone. reflexivity.
      * simpl. rewrite T, <- !app_assoc. reflexivity.
      * rewrite !state_writes_app, Hnone. reflexivity.
Qed.

Lemma state_written_only_on_success_witness :
  exists c w1 r st1 evs,
    ReadConfig Examples.stubborn "state.json" Examples.dawn = (inr c, w1)
    /\ main_switch Examples.stubborn "shutdown" ["shutdown"] [] 24
         {| cfg := c; world := w1 |} = (Val r, st1)
    /\ trace Examples.stubborn_shutdown.2 = [] ++ evs
    /\ state_writes evs =
         match r, json_MarshalIndent Examples.stubborn (cfg st1) with
         | None, inr b => [("state.json", b)]
         | _, _ => []
         end
    /\ is_Some r.
Proof.
  eexists _, _, _, _.
  edestruct (state_written_only_on_success Examples.stubborn "state.json"
               "shutdown" [] [] 24 Examples.dawn) as (evs & T & W & _).
  - repeat constructor.
  - intros [=].
  - reflexivity.
  - reflexivity.
  - exists evs. split; [reflexivity|]. split; [reflexivity|].
    split; [exact T|]. split; [exact W|]. by eexists.
Defined.

(** C2 fails as stated: [icecloud shutdown], with a termination that EC2
    refuses, exits with status 1 and has not written the state file. *)
Lemma state_not_written_on_failure_counterexample :
  Examples.stubborn_shutdown.1 = Val 1
  /\ state_writes (trace Examples.stubborn_shutdown.2) = []
  /\ map ev_op (trace Examples.stubborn_shutdown.2) =
       [OpReadFile "state.json" (inr "{}");
        OpTerminateInstances 0 APNortheast ["i-1"] (Some "refused");
        OpLog "i-1 refused";
        OpTerminateInstances 2 USEast ["i-3"] None;
        OpLog "some instances didn't shut down cleanly"].
Proof. vm_compute. repeat split. Qed.

(** ** Playlists *)

Lemma append_assoc (s1 s2 s3 : string) :
  (s1 +:+ s2) +:+ s3 = s1 +:+ (s2 +:+ s3).
Proof.
  induction s1 as [|a s1 IH]; [done|].
  change (String a ((s1 +:+ s2) +:+ s3) = String a (s1 +:+ s2 +:+ s3)).
  by f_equal.
Qed.

Lemma writePlaylist_servers_fold c mount i (l : list (nat * Server)) : forall acc,
  fold_left
    (fun servers js =>
       if (Kind js.2 =? "master")%string || (i =? js.1)%nat then servers
       else servers ++ [ServerURL c js.2 +:+ mount])
    l acc
  = acc ++ map (fun js => mount_url c mount js.2)
             (filter (fun js => js.1 <> i)
                (filter (fun js => Kind js.2 <> "master") l)).
Proof.
  induction l as [|[j s] l IH]; intros acc; simpl.
  - by rewrite app_nil_r.
  - rewrite IH. rewrite !filter_cons. simpl.
    destruct (String.eqb_spec (Kind s) "master") as [Hm|Hm]; simpl.
    + by rewrite decide_False by (intros H; by apply H).
    + rewrite decide_True by done. rewrite filter_cons. simpl.
      destruct (Nat.eqb_spec i j) as [->|Hij].
      * by rewrite decide_False by (intros H; by apply H).
      * rewrite decide_True by done. simpl. by rewrite <- app_assoc.
Qed.

(** The entries of the playlist of the server at [i]: its own URL, then the
    URLs of the other relays in the order of the fleet. *)
Lemma writePlaylist_servers_eq c mount i s :
  writePlaylist_servers c mount i s
  = mount_url c mount s
    :: map (fun js => mount_url c mount js.2) (other_relays c i).
Proof. unfold writePlaylist_servers. by rewrite writePlaylist_servers_fold. Qed.

Lemma elem_of_relays c j s :
  (j, s) ∈ relays c <-> Config_Server c !! j = Some s /\ Kind s <> "master".
Proof.
  unfold relays. rewrite list_elem_of_filter. simpl.
  rewrite list_elem_of_lookup. split.
  - intros [Hk [k Hl]]. split; [|done].
    apply list_lookup_imap_Some in Hl as (s' & Hs' & [= -> ->]). done.
  - intros [Hl Hk]. split; [done|]. exists j.
    apply list_lookup_imap_Some. by exists s.
Qed.

Lemma elem_of_other_relays c i j s :
  (j, s) ∈ other_relays c i <->
  Config_Server c !! j = Some s /\ Kind s <> "master" /\ j <> i.
Proof.
  unfold other_relays. rewrite list_elem_of_filter, elem_of_relays. simpl. tauto.
Qed.

Lemma m3uTmpl_lines servers :
  m3uTmpl servers = concat_strings (map (fun url => url +:+ "
") servers).
Proof.
  unfold m3uTmpl, concat_strings. induction servers as [|u l IH]; [done|].
  simpl. rewrite IH. by rewrite append_assoc.
Qed.

Lemma imap_plsTmpl_entry (l : list string) : forall k,
  imap (fun j => plsTmpl_entry (k + j)) l
  = zip_with pls_block (seq (S k) (length l)) l.
Proof.
  induction l as [|u l IH]; intros k; [done|]. cbn [imap length seq zip_with].
  f_equal.
  - unfold plsTmpl_entry, pls_block, idx.
    replace (Z.of_nat (k + 0) + 1) with (Z.of_nat (S k)) by lia. done.
  - rewrite <- IH. apply imap_ext. intros j u' _. simpl.
    by replace (k + S j)%nat with (S k + j)%nat by lia.
Qed.

(** The [pls] encoding numbers the entries from one and ends with their
    count. *)
Lemma plsTmpl_blocks servers :
  plsTmpl servers
  = "
[playlist]
" +:+ concat_strings (zip_with pls_block (seq 1 (length servers)) servers)
  +:+ "
NumberOfEntries=" +:+ pretty (Z.of_nat (length servers)) +:+ "
Version=2
".
Proof.
  unfold plsTmpl, concat_strings.
  by rewrite <- (imap_plsTmpl_entry servers 0).
Qed.

Lemma file_writes_app evs1 evs2 :
  file_writes (evs1 ++ evs2) = file_writes evs1 ++ file_writes evs2.
Proof. apply omap_app. Qed.

Section PlaylistFiles.

Variable env : Env.

Lemma writePlaylist_loop_exec c mount ext t l : forall st,
  exists r w' evs,
    exec (writePlaylist_loop env c mount ext t l) st
      = (Val r, {| cfg := cfg st; world := w' |})
    /\ trace w' = trace (world st) ++ evs
    /\ (r = None ->
        file_writes evs
        = map (fun js => (mount +:+ "-" +:+ Name js.2 +:+ "." +:+ ext,
                          t (writePlaylist_servers c mount js.1 js.2)))
            (filter (fun js => Kind js.2 <> "master") l)).
Proof.
  induction l as [|[i s] l IH]; intros st.
  - exists None, (world st), []. rewrite app_nil_r. by destruct st.
  - cbn [writePlaylist_loop]. rewrite filter_cons. simpl.
    destruct (String.eqb_spec (Kind s) "master") as [Hm|Hm].
    { rewrite decide_False by (intros H; by apply H). apply IH. }
    rewrite decide_True by done. unfold on_world. cbn.
    destruct (os_Create env (world st) _) as [e|] eqn:Hc.
    { eexists _, _, _. split; [reflexivity|]. split; [reflexivity|]. done. }
    cbn.
    destruct (file_Write env _ _ _) as [e|] eqn:Hw.
    { eexists _, _, _. split; [reflexivity|].
      split; [simpl; rewrite <- app_assoc; reflexivity|]. done. }
    cbn.
    match goal with |- context [exec _ ?st1] =>
      destruct (IH st1) as (r & w' & evs & E & T & W) end.
    rewrite E. eexists r, w', _. split; [reflexivity|]. split.
    + rewrite T. simpl. rewrite <- !app_assoc. reflexivity.
    + intros Hr. rewrite !file_writes_app, (W Hr). reflexivity.
Qed.

Lemma writePlaylist_exec mount ext t st :
  exists r w' evs,
    exec (writePlaylist env mount ext t) st
      = (Val r, {| cfg := cfg st; world := w' |})
    /\ trace w' = trace (world st) ++ evs
    /\ (r = None -> file_writes evs = playlist_files (cfg st) mount ext t).
Proof.
  unfold writePlaylist, getConfig. cbn [bind exec].
  apply writePlaylist_loop_exec.
Qed.

Lemma Playlist_exec mounts : forall st,
  exists r w' evs,
    exec (Playlist env mounts) st = (Val r, {| cfg := cfg st; world := w' |})
    /\ trace w' = trace (world st) ++ evs
    /\ (r = None ->
        file_writes evs
        = flat_map (fun m => playlist_files (cfg st) m "m3u" m3uTmpl
                             ++ playlist_files (cfg st) m "pls" plsTmpl)
            mounts).
Proof.
  induction mounts as [|m mounts IH]; intros st.
  - exists None, (world st), []. rewrite app_nil_r. by destruct st.
  - cbn [Playlist]. rewrite exec_bind.
    destruct (writePlaylist_exec m "m3u" m3uTmpl st) as (r1 & w1 & evs1 & E1 & T1 & W1).
    rewrite E1. destruct r1 as [e|].
    { exists (Some e), w1, evs1. done. }
    rewrite exec_bind.
    destruct (writePlaylist_exec m "pls" plsTmpl {| cfg := cfg st; world := w1 |})
      as (r2 & w2 & evs2 & E2 & T2 & W2).
    cbn [cfg world] in E2, T2, W2. rewrite E2. destruct r2 as [e|].
    { exists (Some e), w2, (evs1 ++ evs2). split; [done|]. split; [|done].
      by rewrite T2, T1, app_assoc. }
    destruct (IH {| cfg := cfg st; world := w2 |}) as (r & w' & evs & E & T & W).
    cbn [cfg world] in E, T, W. rewrite E. exists r, w', (evs1 ++ evs2 ++ evs). split; [done|]. split.
    + by rewrite T, T2, T1, <- !app_assoc.
    + intros Hr. rewrite !file_writes_app, (W1 eq_refl), (W2 eq_refl), (W Hr).
      simpl. by rewrite <- app_assoc.
Qed.

End PlaylistFiles.

(** C6: the playlist of a relay lists its own URL for the mount first, then
    the URLs of the other relays in the order of the fleet: the master is in
    no playlist and the relay's own entry is not repeated.  A line per URL
    makes the [m3u] file; the [pls] file numbers the entries from one and
    ends with their count.  [Playlist] always returns, and when it returns no
    error it has written, for every mount, the [m3u] file of every relay and
    then the [pls] file of every relay. *)
Theorem playlists_list_self_then_other_relays (env : Env)
    (mounts : list string) (st : State) :
  (exists r st' evs,
     exec (Playlist env mounts) st = (Val r, st')
     /\ trace (world st') = trace (world st) ++ evs
     /\ (r = None ->
         file_writes evs
         = flat_map (fun m => playlist_files (cfg st) m "m3u" m3uTmpl
                              ++ playlist_files (cfg st) m "pls" plsTmpl)
             mounts))
  /\ (forall mount i s,
        Config_Server (cfg st) !! i = Some s -> Kind s <> "master" ->
        (mount +:+ "-" +:+ Name s +:+ ".m3u",
         m3uTmpl (writePlaylist_servers (cfg st) mount i s))
          ∈ playlist_files (cfg st) mount "m3u" m3uTmpl
        /\ (mount +:+ "-" +:+ Name s +:+ ".pls",
            plsTmpl (writePlaylist_servers (cfg st) mount i s))
          ∈ playlist_files (cfg st) mount "pls" plsTmpl)
  /\ (forall mount i s,
        let entries := writePlaylist_servers (cfg st) mount i s in
        entries = mount_url (cfg st) mount s
                  :: map (fun js => mount_url (cfg st) mount js.2)
                       (other_relays (cfg st) i)
        /\ (forall j s', (j, s') ∈ other_relays (cfg st) i <->
              Config_Server (cfg st) !! j = Some s' /\ Kind s' <> "master"
              /\ j <> i)
        /\ m3uTmpl entries = concat_strings (map (fun url => url +:+ "
") entries)
        /\ plsTmpl entries
           = "
[playlist]
" +:+ concat_strings (zip_with pls_block (seq 1 (length entries)) entries)
             +:+ "
NumberOfEntries=" +:+ pretty (Z.of_nat (length entries)) +:+ "
Version=2
").
Proof.
  split; [|split].
  - destruct (Playlist_exec env mounts st) as (r & w' & evs & E & T & W).
    by exists r, {| cfg := cfg st; world := w' |}, evs.
  - intros mount i s Hs Hk. unfold playlist_files.
    split; apply elem_of_map; exists (i, s); (split; [done|]);
      by apply elem_of_relays.
  - intros mount i s entries. unfold entries.
    split; [apply writePlaylist_servers_eq|].
    split; [intros j s'; apply elem_of_other_relays|].
    split; [apply m3uTmpl_lines|apply plsTmpl_blocks].
Qed.

(** The fleet of the specification: a master and the relays A, B and C. *)
Example playlists_of_A_and_B :
  let c := Examples.config
             [Examples.server "origin" "master" "Tokyo" (Some (Examples.instance "i-0" "m"));
              Examples.server "A" "slave" "Europe" (Some (Examples.instance "i-1" "a"));
              Examples.server "B" "slave" "USEast" (Some (Examples.instance "i-2" "b"));
              Examples.server "C" "slave" "USWest" (Some (Examples.instance "i-3" "c"))] in
  (forall s, Config_Server c !! 1%nat = Some s ->
     writePlaylist_servers c "live" 1 s
     = ["http://a:8000/live"; "http://b:8000/live"; "http://c:8000/live"])
  /\ (forall s, Config_Server c !! 2%nat = Some s ->
     writePlaylist_servers c "live" 2 s
     = ["http://b:8000/live"; "http://a:8000/live"; "http://c:8000/live"]).
Proof. split; intros s [= <-]; reflexivity. Qed.

(** C10: [ServerURL] is the empty string for a server without an instance,
    and for every server when the credentials are absent; so in every
    playlist the entry of such a relay is the bare mount name. *)
Theorem unprovisioned_relay_entry_is_bare_mount (c : Config) (mount : string) :
  (forall s, Instance s = None \/ Config_Icecast c = None -> ServerURL c s = "")
  /\ (forall i si j sj,
        Config_Server c !! i = Some si ->
        Config_Server c !! j = Some sj -> Kind sj <> "master" ->
        Instance sj = None \/ Config_Icecast c = None ->
        mount_url c mount sj = mount
        /\ mount_url c mount sj ∈ writePlaylist_servers c mount i si).
Proof.
  assert (Hurl : forall s, Instance s = None \/ Config_Icecast c = None ->
                           ServerURL c s = "").
  { intros s [H|H]; unfold ServerURL; rewrite H; [done|]. by destruct (Instance s). }
  split; [done|]. intros i si j sj Hi Hj Hk Hnone. split.
  - unfold mount_url. by rewrite (Hurl sj Hnone).
  - rewrite writePlaylist_servers_eq. destruct (decide (j = i)) as [->|Hne].
    + assert (sj = si) as -> by congruence. left.
    + right. apply elem_of_map. exists (j, sj). split; [done|].
      by apply elem_of_other_relays.
Qed.

Example playlist_with_unprovisioned_relay :
  writePlaylist_servers
    (Examples.config
       [Examples.server "origin" "master" "Tokyo" (Some (Examples.instance "i-0" "m"));
        Examples.server "A" "slave" "Europe" (Some (Examples.instance "i-1" "a"));
        Examples.server "B" "slave" "USEast" None])
    "live" 1
    (Examples.server "A" "slave" "Europe" (Some (Examples.instance "i-1" "a")))
  = ["http://a:8000/live"; "live"].
Proof. reflexivity. Qed.

(** ** Waiting for readiness *)

Section Waiting.

Variable env : Env.

Lemma getInstance_exec i st s inst r :
  Config_Server (cfg st) !! i = Some s ->
  Instance s = Some inst ->
  Locations !! Location s = Some r ->
  exec (getInstance env i) st
  = let resp := ec2_Instances env (world st) (Config_auth (cfg st)) r
                  [InstanceId inst] in
    (Val (described resp),
     {| cfg := match described resp with
               | inr inst' =>
                   set_Server (cfg st)
                     (alter (fun s => set_Instance s inst') i
                            (Config_Server (cfg st)))
               | inl _ => cfg st
               end;
        world := record env (world st)
                   (OpInstances i r [InstanceId inst] resp) |}).
Proof.
  intros Hs Hi Hr. unfold getInstance, getConfig, getServer, Server_Region.
  cbn [bind exec fst snd cfg]. rewrite Hs. cbn [bind exec]. rewrite Hr.
  cbn [bind exec]. rewrite Hi. unfold on_world, setInstance.
  cbn [bind exec fst snd cfg world].
  destruct (ec2_Instances env (world st) (Config_auth (cfg st)) r [InstanceId inst])
    as [e|[|[|inst1 [|inst2 res]] [|res2 reservations]]]; cbn; try reflexivity.
  all: by destruct st.
Qed.

Lemma waitReady_loop_exec i deadline n : forall st s inst r,
  Config_Server (cfg st) !! i = Some s ->
  Instance s = Some inst ->
  Locations !! Location s = Some r ->
  deadline - now (world st) <= 5000000000 * Z.of_nat n ->
  exists res st' evs,
    exec (waitReady_loop env n i deadline) st = (Val res, st')
    /\ trace (world st') = trace (world st) ++ evs
    /\ Waited i deadline (now (world st)) evs res (now (world st')).
Proof.
  induction n as [|n IH]; intros st s inst r Hs Hi Hr Hfuel.
  - cbn. destruct (Z.ltb_spec (now (world st)) deadline) as [Hlt|Hge]; [lia|].
    cbn. exists (Some waitReady_timeout), st, []. rewrite app_nil_r.
    split; [done|]. split; [done|]. by constructor.
  - cbn [waitReady_loop]. unfold time_Now at 1. cbn [bind exec].
    destruct (Z.ltb_spec (now (world st)) deadline) as [Hlt|Hge].
    2: { cbn. exists (Some waitReady_timeout), st, []. rewrite app_nil_r.
         split; [done|]. split; [done|]. by constructor. }
    rewrite exec_bind, (getInstance_exec i st s inst r Hs Hi Hr). cbv zeta.
    set (resp := ec2_Instances env (world st) (Config_auth (cfg st)) r
                   [InstanceId inst]).
    destruct (described resp) as [e|inst'] eqn:Hd.
    { cbn. eexists _, _, _. split; [reflexivity|]. split; [reflexivity|].
      eapply Waited_error; [done|done|]. simpl. lia. }
    destruct (String.eqb_spec (DNSName inst') "") as [Hdns|Hdns]; cbn [negb].
    2: { cbn. eexists _, _, _. split; [reflexivity|]. split; [reflexivity|].
         eapply Waited_ready; [done|done|done|]. simpl. lia. }
    rewrite exec_bind. unfold time_Sleep. cbn [bind exec cfg world fst snd].
    match goal with |- context [exec (waitReady_loop env n i deadline) ?st2] =>
      destruct (IH st2 (set_Instance s inst') inst' r) as (res & st' & evs & E & T & W)
    end.
    { cbn. by rewrite list_lookup_alter_eq, Hs. }
    { done. }
    { done. }
    { cbn. lia. }
    rewrite E. eexists res, st', _. split; [reflexivity|]. split.
    + rewrite T. cbn. rewrite <- !app_assoc. reflexivity.
    + eapply Waited_again; [done| | | |exact W]; [|cbn; lia..].
      unfold quiet. rewrite Hd. by apply String.eqb_eq.
Qed.

End Waiting.

Lemma polls_cons_poll t i r ids resp evs :
  polls ({| ev_time := t; ev_op := OpInstances i r ids resp |} :: evs)
  = (t, resp) :: polls evs.
Proof. reflexivity. Qed.

Lemma polls_cons_sleep t i d evs :
  polls ({| ev_time := t; ev_op := OpSleep i d |} :: evs) = polls evs.
Proof. reflexivity. Qed.

Section WaitedFacts.

Variables (i : nat) (deadline : Z).

Lemma Waited_events t evs res t' :
  Waited i deadline t evs res t' ->
  Forall (poll_or_sleep i) evs
  /\ map (fun e => kind_of (ev_op e)) evs = wait_kinds (polls evs).
Proof.
  induction 1 as [t Ht|t r ids resp e t' Ht Hd Ht'|t r ids resp inst t' Ht Hd Hn Ht'
                 |t r ids resp t1 t2 evs res t' Ht Hq Ht1 Ht2 HW [IH1 IH2]].
  - split; [constructor|done].
  - split; [constructor; [left; by eexists _, _, _|constructor]|].
    cbn. unfold quiet. by rewrite Hd.
  - split; [constructor; [left; by eexists _, _, _|constructor]|].
    cbn. unfold quiet. rewrite Hd. by apply String.eqb_neq in Hn as ->.
  - split.
    + constructor; [left; by eexists _, _, _|]. constructor; [by right|done].
    + rewrite polls_cons_poll, polls_cons_sleep. cbn. rewrite Hq. cbn.
      by rewrite IH2.
Qed.

Lemma Waited_times t evs res t' :
  Waited i deadline t evs res t' ->
  t <= t'
  /\ Forall (fun p => p.1 < deadline) (polls evs)
  /\ (forall k p, polls evs !! k = Some p -> t + 5000000000 * Z.of_nat k <= p.1)
  /\ (forall k p p', polls evs !! k = Some p -> polls evs !! S k = Some p' ->
                     p.1 + 5000000000 <= p'.1).
Proof.
  induction 1 as [t Ht|t r ids resp e t' Ht Hd Ht'|t r ids resp inst t' Ht Hd Hn Ht'
                 |t r ids resp t1 t2 evs res t' Ht Hq Ht1 Ht2 HW (IH0 & IH1 & IH2 & IH3)].
  - split; [lia|]. split; [constructor|]. split; intros [|k]; done.
  - split; [done|]. split; [by repeat constructor|]. split.
    + intros [|k] p [= <-]; simpl; lia.
    + intros [|k] p p'; done.
  - split; [done|]. split; [by repeat constructor|]. split.
    + intros [|k] p [= <-]; simpl; lia.
    + intros [|k] p p'; done.
  - rewrite polls_cons_poll, polls_cons_sleep. split; [lia|].
    split; [by constructor|]. split.
    + intros [|k] p Hp.
      * injection Hp as <-. simpl. lia.
      * simpl in Hp. specialize (IH2 k p Hp). lia.
    + intros [|k] p p' Hp Hp'.
      * injection Hp as <-. simpl in *. specialize (IH2 0%nat p' Hp'). lia.
      * by apply (IH3 k).
Qed.

Lemma Waited_decided t evs res t' :
  Waited i deadline t evs res t' ->
  decided deadline (last (polls evs)) res t'
  /\ (forall k p, polls evs !! k = Some p -> (S k < length (polls evs))%nat ->
                  quiet p.2 = true).
Proof.
  induction 1 as [t Ht|t r ids resp e t' Ht Hd Ht'|t r ids resp inst t' Ht Hd Hn Ht'
                 |t r ids resp t1 t2 evs res t' Ht Hq Ht1 Ht2 HW [IH1 IH2]].
  - split; [done|]. intros [|k]; done.
  - split; [cbn; by rewrite Hd|]. intros [|k] p; simpl; [lia|done].
  - split.
    + cbn. unfold quiet. rewrite Hd. by apply String.eqb_neq in Hn as ->.
    + intros [|k] p; simpl; [lia|done].
  - rewrite polls_cons_poll, polls_cons_sleep. split.
    + destruct (polls evs) as [|p ps] eqn:Hps.
      * inversion HW; subst; try discriminate.
        cbn. unfold decided in IH1. cbn in IH1. unfold quiet in Hq |- *.
        destruct (described resp) as [e|inst]; [done|]. by rewrite Hq.
      * by rewrite last_cons_cons.
    + intros [|k] p Hp Hlen.
      * by injection Hp as <-.
      * simpl in Hp, Hlen. apply (IH2 k p Hp). lia.
Qed.

End WaitedFacts.


(** C3: the wait for a provisioned server polls EC2 and sleeps five seconds
    after every poll that shows no address, and does nothing else.  Every
    poll begins less than 120 seconds after the start of the wait, two polls
    are at least five seconds apart, and there are at most 24 of them.  Every
    poll but the last showed no address: the first answer that is an error or
    shows an address ends the wait.  The wait succeeds exactly when its last
    poll shows an address; it returns the error of the last poll when that is
    an error, and the timeout, with the deadline passed, when the last poll
    showed no address. *)
Theorem waitReady_polls_until_address_or_deadline (env : Env) (n i : nat)
    (st : State) (s : Server) (inst : ec2_Instance) (r : Region) :
  (24 <= n)%nat ->
  Config_Server (cfg st) !! i = Some s ->
  Instance s = Some inst ->
  Locations !! Location s = Some r ->
  exists res st' evs,
    exec (waitReady env n i) st = (Val res, st')
    /\ trace (world st') = trace (world st) ++ evs
    /\ Forall (poll_or_sleep i) evs
    /\ map (fun e => kind_of (ev_op e)) evs = wait_kinds (polls evs)
    /\ (1 <= length (polls evs) <= 24)%nat
    /\ Forall (fun p => now (world st) <= p.1 < now (world st) + 120000000000)
         (polls evs)
    /\ (forall k p p', polls evs !! k = Some p -> polls evs !! S k = Some p' ->
                       p.1 + 5000000000 <= p'.1)
    /\ (forall k p, polls evs !! k = Some p -> (S k < length (polls evs))%nat ->
                    quiet p.2 = true)
    /\ decided (now (world st) + 120000000000) (last (polls evs)) res
         (now (world st'))
    /\ (res = None <-> exists p, last (polls evs) = Some p /\ ready p.2 = true).
Proof.
  intros Hn Hs Hi Hr. unfold waitReady, time_Now. cbn [bind exec].
  destruct (waitReady_loop_exec env i (now (world st) + waitReady_deadline) n
              st s inst r Hs Hi Hr) as (res & st' & evs & E & T & W).
  { unfold waitReady_deadline. lia. }
  change waitReady_deadline with 120000000000 in *.
  exists res, st', evs.
  destruct (Waited_events _ _ _ _ _ _ W) as [Ev Kd].
  destruct (Waited_times _ _ _ _ _ _ W) as (Ht & Hlt & Hfrom & Hgap).
  destruct (Waited_decided _ _ _ _ _ _ W) as [Hdec Hquiet].
  assert (Hbefore : Forall (fun p => now (world st) <= p.1
                                     < now (world st) + 120000000000) (polls evs)).
  { apply Forall_lookup. intros k p Hp. split.
    - specialize (Hfrom k p Hp). lia.
    - by apply (proj1 (Forall_lookup _ _) Hlt k p). }
  repeat (split; [done|]). split; [|split; [done|split; [done|split; [done|split; [done|]]]]].
  - split.
    + inversion W; subst; simpl; lia.
    + destruct (decide (length (polls evs) <= 24)%nat) as [|Hmore]; [done|].
      destruct (lookup_lt_is_Some_2 (polls evs) 24) as [p Hp]; [lia|].
      specialize (Hfrom 24%nat p Hp).
      pose proof (proj1 (Forall_lookup _ _) Hlt 24%nat p Hp) as Hp'. simpl in Hp'. lia.
  - unfold decided in Hdec. destruct (last (polls evs)) as [p|].
    + assert (Hready : ready p.2 = true <-> res = None).
      { unfold ready, quiet in *. destruct (described p.2) as [e|inst'].
        - by subst.
        - destruct (DNSName inst' =? "")%string; simpl; [|done].
          by destruct Hdec as [-> _]. }
      split.
      * intros Hres. exists p. split; [done|]. by apply Hready.
      * intros (p' & [= <-] & Hp'). by apply Hready.
    + destruct Hdec as [-> _]. split; [done|]. by intros (p' & ? & _).
Qed.

Lemma waitReady_polls_until_address_or_deadline_witness :
  exists res st' evs,
    exec (waitReady Examples.slow_start 24 0) (Examples.state Examples.fleet3)
      = (Val res, st')
    /\ trace (world st') = [] ++ evs
    /\ (1 <= length (polls evs) <= 24)%nat
    /\ Forall (fun p => 0 <= p.1 < 0 + 120000000000) (polls evs)
    /\ (res = None <-> exists p, last (polls evs) = Some p /\ ready p.2 = true).
Proof.
  edestruct (waitReady_polls_until_address_or_deadline Examples.slow_start 24 0
               (Examples.state Examples.fleet3))
    as (res & st' & evs & E & T & _ & _ & L & B & _ & _ & _ & R).
  - lia.
  - reflexivity.
  - reflexivity.
  - reflexivity.
  - by exists res, st', evs.
Defined.

(** The address appears twelve seconds into the wait: four polls, five
    seconds apart, and the wait succeeds. *)
Example waitReady_slow_start :
  let end_ := exec (waitReady Examples.slow_start 24 0)
                (Examples.state Examples.fleet3) in
  end_.1 = Val None
  /\ map fst (polls (trace (world end_.2)))
     = [0; 5000000000; 10000000000; 15000000000].
Proof. vm_compute. split; reflexivity. Qed.

(** No address ever appears: 24 polls, the last 115 seconds into the wait,
    and the wait times out. *)
Example waitReady_no_address :
  let end_ := exec (waitReady Examples.no_address 24 0)
                (Examples.state Examples.fleet3) in
  end_.1 = Val (Some waitReady_timeout)
  /\ length (polls (trace (world end_.2))) = 24%nat
  /\ last (map fst (polls (trace (world end_.2)))) = Some 115000000000
  /\ now (world end_.2) = 120000000000.
Proof. vm_compute. repeat split; reflexivity. Qed.

(** ** Goroutines *)

Section RelyGuarantee.

Context {A : Type}.
Variables (R G : nat -> State -> State -> Prop) (Q : nat -> A -> State -> Prop).
Variable T : State -> State -> Prop.
Hypothesis T_refl : forall st, T st st.
Hypothesis T_trans : forall st1 st2 st3, T st1 st2 -> T st2 st3 -> T st1 st3.
Hypothesis G_T : forall i st st', G i st st' -> T st st'.
Hypothesis R_refl : forall i st, R i st st.
Hypothesis R_trans : forall i st1 st2 st3, R i st1 st2 -> R i st2 st3 -> R i st1 st3.
Hypothesis G_R : forall i j st st', i <> j -> G j st st' -> R i st st'.
Hypothesis Q_stable : forall i a st st', Q i a st -> R i st st' -> Q i a st'.

(** A goroutine run to its end, the others standing still. *)
Lemma tsafe_exec i (p : Prog A) : forall s0 st,
  tsafe (R i) (G i) p s0 (Q i) -> R i s0 st ->
  exists a st', exec p st = (Val a, st') /\ Q i a st' /\ T st st'
                /\ forall j, j <> i -> R j st st'.
Proof.
  induction p as [a|m| |X f k IH]; intros s0 st Hp Hs; simpl in *; try done.
  - exists a, st. split; [done|]. split; [by eapply Q_stable|].
    split; [done|]. intros; apply R_refl.
  - destruct (Hp st Hs) as [Hg Hk]. destruct (f st) as [x st1]. simpl in *.
    destruct (IH x st1 st1 Hk (R_refl _ _)) as (a & st' & E & Hq & Ht & Hr).
    exists a, st'. split; [done|]. split; [done|].
    split; [eapply T_trans; [by eapply G_T|done]|].
    intros j Hj. eapply R_trans; [|by apply Hr]. by eapply G_R.
Qed.

Lemma drain_safe (ws : Pool A) : forall k st rcv,
  pool_safe R G Q k ws st ->
  exists new st',
    drain k ws st rcv = (Val (rcv ++ new), st')
    /\ (forall i, i ∈ map fst new <-> pending k ws i)
    /\ NoDup (map fst new)
    /\ (forall i a, (i, a) ∈ new -> Q i a st')
    /\ T st st'
    /\ (forall i, ~ pending k ws i -> R i st st').
Proof.
  induction ws as [|[p|] ws IH]; intros k st rcv Hsafe; cbn [drain].
  - exists [], st. rewrite app_nil_r. split; [done|]. split.
    { intros i. split; [by intros ?%elem_of_nil|]. by intros (j & p & _ & ?). }
    split; [constructor|]. split; [by intros i a ?%elem_of_nil|].
    split; [done|]. intros; apply R_refl.
  - destruct (Hsafe 0%nat p eq_refl) as (s0 & Hs0 & Hp).
    rewrite Nat.add_0_r in Hs0, Hp.
    destruct (tsafe_exec k p s0 st Hp Hs0) as (a & st1 & E & Hq & Ht1 & Hr).
    rewrite E.
    destruct (IH (S k) st1 (rcv ++ [(k, a)]))
      as (new & st' & E' & Hin & Hnd & Hqs & Ht & Hrs).
    { intros j q Hj. destruct (Hsafe (S j) q Hj) as (s1 & Hs1 & Hq1).
      replace (k + S j)%nat with (S k + j)%nat in * by lia.
      exists s1. split; [|done]. eapply R_trans; [exact Hs1|]. apply Hr. lia. }
    assert (Hk : ~ pending (S k) ws k) by (intros (j & q & ? & _); lia).
    exists ((k, a) :: new), st'. split; [by rewrite E', <- app_assoc|]. split.
    { intros i. cbn [map fst]. rewrite elem_of_cons, Hin. split.
      - intros [->|(j & q & -> & Hj)].
        + exists 0%nat, p. split; [lia|done].
        + exists (S j), q. split; [lia|done].
      - intros ([|j] & q & -> & Hj).
        + left. lia.
        + right. exists j, q. split; [lia|done]. }
    split.
    { cbn [map fst]. constructor; [|done]. by rewrite Hin. }
    split.
    { intros i b [[= -> ->]|Hb]%elem_of_cons; [|by apply Hqs].
      eapply Q_stable; [exact Hq|]. by apply Hrs. }
    split; [by eapply T_trans|].
    intros i Hi. eapply R_trans.
    + apply Hr. intros ->. apply Hi. exists 0%nat, p. split; [lia|done].
    + apply Hrs. intros (j & q & -> & Hj). apply Hi.
      exists (S j), q. split; [lia|done].
  - destruct (IH (S k) st rcv) as (new & st' & E' & Hin & Hnd & Hqs & Ht & Hrs).
    { intros j q Hj. destruct (Hsafe (S j) q Hj) as (s1 & Hs1 & Hq1).
      replace (k + S j)%nat with (S k + j)%nat in * by lia. by exists s1. }
    exists new, st'. split; [done|]. split.
    { intros i. rewrite Hin. split.
      - intros (j & q & -> & Hj). exists (S j), q. split; [lia|done].
      - intros ([|j] & q & -> & Hj); [done|]. exists j, q. split; [lia|done]. }
    split; [done|]. split; [done|]. split; [done|].
    intros i Hi. apply Hrs. intros (j & q & -> & Hj). apply Hi.
    exists (S j), q. split; [lia|done].
Qed.

Lemma fanout_safe (sched : list nat) : forall (ws : Pool A) st rcv,
  pool_safe R G Q 0 ws st -> received Q ws rcv st ->
  exists rcv' st',
    fanout sched ws st rcv = (Val rcv', st')
    /\ (forall i a, (i, a) ∈ rcv' -> Q i a st')
    /\ NoDup (map fst rcv')
    /\ (forall i, (i < length ws)%nat <-> i ∈ map fst rcv')
    /\ T st st'.
Proof.
  induction sched as [|i sched IH]; intros ws st rcv Hsafe (Hq & Hnd & Hnone);
    cbn [fanout].
  - destruct (drain_safe ws 0 st rcv Hsafe)
      as (new & st' & E & Hin & Hnd' & Hqs & Ht & Hrs).
    exists (rcv ++ new), st'. split; [done|]. split; [|split; [|split; [|done]]].
    + intros j a [Hj|Hj]%elem_of_app; [|by apply Hqs].
      destruct (Hq j a Hj) as [Hqj Hgone]. eapply Q_stable; [exact Hqj|].
      apply Hrs. intros (j' & p & -> & Hp). simpl in *. congruence.
    + rewrite map_app. apply NoDup_app. split; [done|]. split; [|done].
      intros j Hj Hj'. apply Hin in Hj' as (j' & p & Hjj & Hp).
      apply elem_of_map in Hj as ([j'' a] & Hj'' & Hj).
      destruct (Hq _ _ Hj) as [_ Hgone]. simpl in *. congruence.
    + intros j. rewrite map_app, elem_of_app. split.
      * intros Hj. destruct (lookup_lt_is_Some_2 ws j Hj) as [[p|] Hp].
        -- right. apply Hin. by exists j, p.
        -- left. by apply Hnone.
      * intros [Hj|Hj].
        -- apply elem_of_map in Hj as ([j' a] & Hj' & Hj).
           destruct (Hq _ _ Hj) as [_ Hgone]. simpl in *. subst.
           by eapply lookup_lt_Some.
        -- apply Hin in Hj as (j' & p & Hjj & Hp). simpl in *. subst.
           by eapply lookup_lt_Some.
  - destruct (ws !! i) as [[[a|m| |X f k]|]|] eqn:Hi;
      try (by apply IH; [|split]).
    + destruct (IH (<[i:=None]> ws) st (rcv ++ [(i, a)]))
        as (rcv' & st' & E & ? & ? & Hall & ?);
        [| |exists rcv', st'; by rewrite length_insert in Hall].
      * intros j p Hj. destruct (decide (j = i)) as [->|Hne].
        -- rewrite list_lookup_insert_eq in Hj by (by eapply lookup_lt_Some). done.
        -- rewrite list_lookup_insert_ne in Hj by done. by apply Hsafe.
      * destruct (Hsafe i (Ret a) Hi) as (s0 & Hs0 & Ha). simpl in Ha.
        split; [|split].
        -- intros j b [Hj|[= -> ->]%list_elem_of_singleton]%elem_of_app.
           ++ destruct (Hq j b Hj) as [Hqj Hgone]. split; [done|].
              rewrite list_lookup_insert_ne; [done|congruence].
           ++ split; [by eapply Q_stable|].
              apply list_lookup_insert_eq. by eapply lookup_lt_Some.
        -- rewrite map_app. apply NoDup_app. split; [done|].
           split; [|apply NoDup_singleton].
           intros j Hj Hji%list_elem_of_singleton.
           apply elem_of_map in Hj as ([j' b] & Hj' & Hj).
           destruct (Hq _ _ Hj) as [_ Hgone]. simpl in *. congruence.
        -- intros j Hj. rewrite map_app, elem_of_app.
           destruct (decide (j = i)) as [->|Hne]; [right; by left|].
           left. apply Hnone. by rewrite list_lookup_insert_ne in Hj.
    + by destruct (Hsafe i (Panic m) Hi) as (s0 & _ & ?).
    + destruct (Hsafe i (Act f k) Hi) as (s0 & Hs0 & Hf). simpl in Hs0, Hf.
      destruct (Hf st Hs0) as [Hg Hk]. destruct (f st) as [x st1]. simpl in *.
      destruct (IH (<[i:=Some (k x)]> ws) st1 rcv)
        as (rcv' & st' & E & ? & ? & Hall & Ht);
        [| |exists rcv', st'; rewrite length_insert in Hall;
            repeat (split; [done|]); eapply T_trans; [by eapply G_T|done]].
      * intros j p Hj. destruct (decide (j = i)) as [->|Hne].
        -- rewrite list_lookup_insert_eq in Hj by (by eapply lookup_lt_Some).
           injection Hj as <-. exists st1. split; [apply R_refl|done].
        -- rewrite list_lookup_insert_ne in Hj by done.
           destruct (Hsafe j p Hj) as (s1 & Hs1 & Hp). exists s1. split; [|done].
           eapply R_trans; [exact Hs1|]. by eapply G_R.
      * split; [|split; [done|]].
        -- intros j b Hj. destruct (Hq j b Hj) as [Hqj Hgone].
           assert (j <> i) by congruence. split.
           ++ eapply Q_stable; [exact Hqj|]. by eapply G_R.
           ++ by rewrite list_lookup_insert_ne.
        -- intros j Hj. apply Hnone.
           destruct (decide (j = i)) as [->|Hne].
           ++ rewrite list_lookup_insert_eq in Hj by (by eapply lookup_lt_Some). done.
           ++ by rewrite list_lookup_insert_ne in Hj.
Qed.

(** All goroutines run to their ends, under every schedule: each hands its
    value over once, and what it promised holds at the end. *)
Lemma go_all_safe (sched : list nat) (worker : nat -> Prog A) st :
  (forall i, (i < length (Config_Server (cfg st)))%nat ->
             tsafe (R i) (G i) (worker i) st (Q i)) ->
  exists rcv st',
    go_all sched worker st = (Val rcv, st')
    /\ (forall i a, (i, a) ∈ rcv -> Q i a st')
    /\ NoDup (map fst rcv)
    /\ (forall i, (i < length (Config_Server (cfg st)))%nat <-> i ∈ map fst rcv)
    /\ T st st'.
Proof.
  intros Hw. unfold go_all.
  set (ws := map (fun i => Some (worker i)) (seq 0 (length (Config_Server (cfg st))))).
  assert (Hws : forall j o, ws !! j = Some o ->
                  o = Some (worker j) /\ (j < length (Config_Server (cfg st)))%nat).
  { intros j o Hj. unfold ws in Hj.
    change (((fun i => Some (worker i)) <$> seq 0 (length (Config_Server (cfg st))))
              !! j = Some o) in Hj.
    apply list_lookup_fmap_Some in Hj as (i & Ho & Hi).
    apply lookup_seq in Hi. destruct Hi as [Hi ?]. simpl in Hi. by subst. }
  destruct (fanout_safe sched ws st []) as (rcv & st' & E & Hq & Hnd & Hall & Ht).
  - intros j p Hj. apply Hws in Hj as [[= ->] Hlt]. exists st.
    split; [apply R_refl|]. by apply Hw.
  - split; [by intros i a ?%elem_of_nil|]. split; [constructor|].
    intros i Hi. by apply Hws in Hi as [[=] _].
  - exists rcv, st'. split; [done|]. split; [done|]. split; [done|].
    split; [|done]. intros i. rewrite <- Hall. unfold ws.
    by rewrite length_map, length_seq.
Qed.

End RelyGuarantee.

(** *** Reasoning on one goroutine *)

Section Tsafe.

Context {A : Type}.
Variables (R G : State -> State -> Prop).

Lemma tsafe_bind {B : Type} (p : Prog A) (g : A -> Prog B) s0 Q :
  tsafe R G p s0 (fun a s1 => tsafe R G (g a) s1 Q) ->
  tsafe R G (bind p g) s0 Q.
Proof.
  revert s0. induction p as [a|m| |X f k IH]; intros s0 Hp; simpl in *; try done.
  intros st Hst. destruct (Hp st Hst) as [Hg Hk]. split; [done|]. by apply IH.
Qed.

Lemma tsafe_mono (p : Prog A) s0 (Q Q' : A -> State -> Prop) :
  (forall a s, Q a s -> Q' a s) -> tsafe R G p s0 Q -> tsafe R G p s0 Q'.
Proof.
  intros HQ. revert s0.
  induction p as [a|m| |X f k IH]; intros s0 Hp; simpl in *; try done.
  - by apply HQ.
  - intros st Hst. destruct (Hp st Hst) as [Hg Hk]. split; [done|]. by apply IH.
Qed.

End Tsafe.

Lemma own_app i evs1 evs2 : own i (evs1 ++ evs2) = own i evs1 ++ own i evs2.
Proof. apply filter_app. Qed.

Lemma own_log i t msg :
  own i [{| ev_time := t; ev_op := OpLog msg |}] = [].
Proof. reflexivity. Qed.

Lemma own_self i e : ev_server e = Some i -> own i [e] = [e].
Proof. intros H. unfold own. rewrite filter_cons. by rewrite decide_True. Qed.

Lemma own_other i evs :
  Forall (fun e => ev_server e <> Some i) evs -> own i evs = [].
Proof.
  induction 1 as [|e evs He _ IH]; [done|].
  unfold own. rewrite filter_cons. rewrite decide_False by done. apply IH.
Qed.

(** *** The goroutines of [Setup] *)

Section SetupWorker.

Variables (env : Env) (st0 : State) (i : nat).
Hypothesis Hi : (i < length (Config_Server (cfg st0)))%nat.

Let N := length (Config_Server (cfg st0)).

Local Abbreviation Setup_at := (Setup_at st0 i).

Lemma Setup_at_rely evs s0 st :
  Setup_at evs s0 -> Setup_rely i s0 st -> Setup_at evs st.
Proof. intros [C O] [C' O']. split; congruence. Qed.

Lemma Setup_step_silent st : Setup_step N i st st.
Proof.
  split; [done|]. split; [done|]. exists []. split; [by rewrite app_nil_r|constructor].
Qed.

Lemma Setup_step_log st msg :
  Setup_step N i st {| cfg := cfg st; world := record env (world st) (OpLog msg) |}.
Proof.
  split; [done|]. split; [done|]. eexists [_]. split; [reflexivity|].
  constructor; [|constructor]. right. by eexists.
Qed.

Lemma Setup_at_log evs st msg :
  Setup_at evs st ->
  Setup_at evs {| cfg := cfg st; world := record env (world st) (OpLog msg) |}.
Proof.
  intros [C O]. split; [done|]. simpl. by rewrite own_app, own_log, app_nil_r.
Qed.

(** The end of the goroutine: the server is read, the line is logged, the
    outcome is sent. *)
Lemma Setup_worker_end evs (err : option Err) s0 s :
  Config_Server (cfg st0) !! i = Some s ->
  Setup_at evs s0 ->
  Rollout env (cfg st0) i evs (bool_decide (err = None)) ->
  tsafe (Setup_rely i) (Setup_step N i)
    (s <- getServer i;;
     match err with
     | Some e => log_Println env (Server_String s +:+ ": " +:+ e);;; Ret false
     | None => log_Println env (Server_String s +:+ ": online");;; Ret true
     end)
    s0 (Setup_done env st0 i).
Proof.
  intros Hs Hat Hroll. unfold getServer, log_Println, on_world. cbn [bind].
  intros st1 Hr1. split; [apply Setup_step_silent|]. cbn [fst snd].
  pose proof (Setup_at_rely _ _ _ Hat Hr1) as Hat1.
  destruct Hat1 as [C1 O1]. rewrite C1, Hs. cbn [bind].
  destruct err as [e|]; cbn [bind]; intros st2 Hr2;
    (split; [apply Setup_step_log|]); cbn [fst snd tsafe];
    exists evs; (split; [|done]);
    apply (Setup_at_log evs st2), (Setup_at_rely evs st1); done.
Qed.

Lemma Setup_step_ssh st userhost c stdin :
  Setup_step N i st
    {| cfg := cfg st;
       world := record env (world st)
                  (OpSsh i userhost c stdin
                     (ssh_CombinedOutput env (world st) userhost c stdin).1
                     (ssh_CombinedOutput env (world st) userhost c stdin).2) |}.
Proof.
  split; [done|]. split; [done|]. eexists [_]. split; [reflexivity|].
  constructor; [|constructor]. left. by eexists _, _, _, _, _.
Qed.

Lemma sshCommand_tsafe evs c stdin s0 s (Q : option Err -> State -> Prop) :
  Config_Server (cfg st0) !! i = Some s ->
  Setup_at evs s0 ->
  (Instance s = None ->
   forall s1, Setup_at evs s1 -> Q (Some "sshCommand: nil instance") s1) ->
  (forall inst t out resp s1,
     Instance s = Some inst ->
     Setup_at (evs ++ [{| ev_time := t;
                          ev_op := OpSsh i (Username s +:+ "@" +:+ DNSName inst)
                                     c stdin out resp |}]) s1 ->
     Q resp s1) ->
  tsafe (Setup_rely i) (Setup_step N i) (sshCommand env i c stdin) s0 Q.
Proof.
  intros Hs Hat Hnil Hssh. unfold sshCommand, getServer, log_Println, on_world.
  cbn [bind]. intros st1 Hr1. split; [apply Setup_step_silent|]. cbn [fst snd].
  pose proof (Setup_at_rely _ _ _ Hat Hr1) as Hat1.
  rewrite (proj1 Hat1), Hs. cbn [bind].
  destruct (Instance s) as [inst|] eqn:Hinst; cbn [bind tsafe]; [|by apply Hnil].
  intros st2 Hr2. split; [apply Setup_step_ssh|]. cbn [fst snd].
  pose proof (Setup_at_rely _ _ _ Hat1 Hr2) as [C2 O2].
  set (userhost := Username s +:+ "@" +:+ DNSName inst).
  set (r := ssh_CombinedOutput env (world st2) userhost c stdin).
  set (e := {| ev_time := now (world st2);
               ev_op := OpSsh i userhost c stdin r.1 r.2 |}).
  assert (Hat2 : Setup_at (evs ++ [e])
                   {| cfg := cfg st2; world := record env (world st2) (ev_op e) |}).
  { split; [done|].
    change (own i (trace (world st2) ++ [e])
            = own i (trace (world st0)) ++ evs ++ [e]).
    by rewrite own_app, O2, <- app_assoc, (own_self i e). }
  destruct r.2 as [err|] eqn:Hr; cbn [bind tsafe].
  - intros st3 Hr3. split; [apply Setup_step_silent|]. cbn [fst snd].
    pose proof (Setup_at_rely _ _ _ Hat2 Hr3) as Hat3.
    rewrite (proj1 Hat3), Hs. cbn [bind].
    intros st4 Hr4. split; [apply Setup_step_log|]. cbn [fst snd tsafe].
    apply (Hssh inst (now (world st2)) r.1 (Some err)); [done|].
    apply Setup_at_log. exact (Setup_at_rely _ _ _ Hat3 Hr4).
  - apply (Hssh inst (now (world st2)) r.1 None); [done|]. exact Hat2.
Qed.

Lemma Setup_worker_tsafe :
  tsafe (Setup_rely i) (Setup_step N i) (Setup_worker env i) st0
    (Setup_done env st0 i).
Proof.
  destruct (lookup_lt_is_Some_2 _ _ Hi) as [s Hs].
  assert (Hat0 : Setup_at [] st0) by (split; [done|by rewrite app_nil_r]).
  unfold Setup_worker. apply tsafe_bind. unfold setupInstance, getConfig, getServer.
  cbn [bind]. intros st1 Hr1. split; [apply Setup_step_silent|]. cbn [fst snd].
  pose proof (Setup_at_rely _ _ _ Hat0 Hr1) as Hat1.
  intros st2 Hr2. split; [apply Setup_step_silent|]. cbn [fst snd].
  pose proof (Setup_at_rely _ _ _ Hat1 Hr2) as Hat2.
  rewrite (proj1 Hat1), (proj1 Hat2), Hs. cbn [bind].
  destruct (setupInstance_script env (cfg st0) s) as [err|script] eqn:Hscript.
  { cbn [tsafe]. eapply (Setup_worker_end [] (Some err)); [done|done|].
    exists s. split; [done|]. rewrite Hscript. done. }
  apply tsafe_bind.
  apply (sshCommand_tsafe [] "cat > setup.sh" (Some script) st2 s); [done|done| |].
  { intros Hnil s1 Hat. cbn [tsafe].
    eapply (Setup_worker_end [] (Some _)); [done|done|].
    exists s. split; [done|]. rewrite Hscript, Hnil. done. }
  intros inst t1 out1 resp1 s1 Hinst Hat. destruct resp1 as [e1|].
  { cbn [tsafe]. eapply (Setup_worker_end _ (Some e1)); [done|exact Hat|].
    exists s. split; [done|]. rewrite Hscript, Hinst. by exists t1, out1, (Some e1). }
  refine (sshCommand_tsafe _ "bash setup.sh" None s1 s _ Hs Hat _ _).
  { intros Hnil. congruence. }
  intros inst' t2 out2 resp2 s2 Hinst' Hat'.
  assert (inst' = inst) as -> by congruence.
  eapply (Setup_worker_end _ resp2); [done|exact Hat'|].
  exists s. split; [done|]. rewrite Hscript, Hinst. exists t1, out1, None.
  exists t2, out2, resp2. done.
Qed.

End SetupWorker.

(** *** All the goroutines of [Setup] *)

Lemma ssh_or_log_other i j e : i <> j -> ssh_or_log j e -> ev_server e <> Some i.
Proof.
  intros Hne [(u & c & si & o & r & He)|(m & He)]; unfold ev_server; rewrite He;
    congruence.
Qed.

Lemma Setup_rely_refl i st : Setup_rely i st st.
Proof. done. Qed.

Lemma Setup_rely_trans i st1 st2 st3 :
  Setup_rely i st1 st2 -> Setup_rely i st2 st3 -> Setup_rely i st1 st3.
Proof. intros [? ?] [? ?]. split; congruence. Qed.

Lemma Setup_step_rely N i j st st' :
  i <> j -> Setup_step N j st st' -> Setup_rely i st st'.
Proof.
  intros Hne (_ & C & evs & T & E). split; [done|].
  rewrite T, own_app, (own_other i evs), app_nil_r; [done|].
  eapply Forall_impl; [exact E|]. intros e. by apply ssh_or_log_other.
Qed.

Lemma Setup_steps_refl N st : Setup_steps N st st.
Proof. split; [done|]. exists []. split; [by rewrite app_nil_r|constructor]. Qed.

Lemma Setup_steps_trans N st1 st2 st3 :
  Setup_steps N st1 st2 -> Setup_steps N st2 st3 -> Setup_steps N st1 st3.
Proof.
  intros (C1 & evs1 & T1 & E1) (C2 & evs2 & T2 & E2). split; [congruence|].
  exists (evs1 ++ evs2). split; [by rewrite T2, T1, app_assoc|].
  by apply Forall_app_2.
Qed.

Lemma Setup_step_steps N i st st' : Setup_step N i st st' -> Setup_steps N st st'.
Proof.
  intros (Hi & C & evs & T & E). split; [done|]. exists evs. split; [done|].
  eapply Forall_impl; [exact E|]. intros e He. by exists i.
Qed.

Lemma Setup_done_stable env st0 i b st st' :
  Setup_done env st0 i b st -> Setup_rely i st st' -> Setup_done env st0 i b st'.
Proof. intros (evs & O & Ro) [_ O']. exists evs. split; [congruence|done]. Qed.

(** What a rollout amounts to for the outcome: it succeeds exactly when both
    commands were sent and succeeded, and at most these two commands are
    sent, in this order. *)
Lemma Rollout_commands env c i evs b :
  Rollout env c i evs b ->
  (b = true <->
   commands evs = [("cat > setup.sh", None); ("bash setup.sh", None)])
  /\ map fst (commands evs) `prefix_of` ["cat > setup.sh"; "bash setup.sh"]
  /\ Forall (fun e => exists u cmd si o r, ev_op e = OpSsh i u cmd si o r) evs.
Proof.
  intros (s & Hs & H).
  destruct (setupInstance_script env c s) as [err|script];
    [destruct H as [-> ->]; split; [done|]; split; [by eexists|constructor]|].
  destruct (Instance s) as [inst|];
    [|destruct H as [-> ->]; split; [done|]; split; [by eexists|constructor]].
  destruct H as (t1 & out1 & [e1|] & H).
  - destruct H as [-> ->]. split; [done|]. split; [by exists ["bash setup.sh"]|].
    constructor; [by eexists _, _, _, _, _|constructor].
  - destruct H as (t2 & out2 & resp2 & -> & ->). split; [|split].
    + cbn. destruct resp2 as [e2|]; [|done].
      rewrite bool_decide_eq_true. split; [done|]. intros [=].
    + by exists [].
    + constructor; [by eexists _, _, _, _, _|].
      constructor; [by eexists _, _, _, _, _|constructor].
Qed.

Lemma allOk_true (rcv : list (nat * bool)) :
  fold_left (fun allOk k => allOk && k.2) rcv true = true <->
  forall i b, (i, b) ∈ rcv -> b = true.
Proof.
  assert (H : forall acc, fold_left (fun allOk (k : nat * bool) => allOk && k.2) rcv acc
                          = true <->
                          acc = true /\ forall i b, (i, b) ∈ rcv -> b = true).
  { induction rcv as [|[j c] rcv IH]; intros acc; simpl.
    - split; [|by intros [? _]]. intros ->. split; [done|].
      by intros i b ?%elem_of_nil.
    - rewrite IH, andb_true_iff. simpl. split.
      + intros [[-> ->] Hall]. split; [done|].
        intros i b [[= -> ->]|?]%elem_of_cons; [done|by eapply Hall].
      + intros [-> Hall]. split; [split; [done|]|].
        * apply (Hall j). left.
        * intros i b Hb. apply (Hall i). by right. }
  rewrite H. split; [by intros [_ ?]|done].
Qed.

Section SetupAll.

Variable env : Env.

(** Every schedule brings the goroutines of [Setup] to their ends. *)
Lemma Setup_go_all sched st :
  exists rcv st' evs,
    go_all sched (Setup_worker env) st = (Val rcv, st')
    /\ cfg st' = cfg st
    /\ trace (world st') = trace (world st) ++ evs
    /\ Forall (fun e => exists i, (i < length (Config_Server (cfg st)))%nat
                                  /\ ssh_or_log i e) evs
    /\ NoDup (map fst rcv)
    /\ (forall i, (i < length (Config_Server (cfg st)))%nat <-> i ∈ map fst rcv)
    /\ (forall i b, (i, b) ∈ rcv -> Rollout env (cfg st) i (own i evs) b).
Proof.
  destruct (go_all_safe Setup_rely (Setup_step (length (Config_Server (cfg st))))
              (Setup_done env st) (Setup_steps (length (Config_Server (cfg st))))
              (Setup_steps_refl _) (Setup_steps_trans _) (Setup_step_steps _)
              Setup_rely_refl Setup_rely_trans
              (fun i j => Setup_step_rely _ i j)
              (Setup_done_stable env st) sched (Setup_worker env) st)
    as (rcv & st' & E & Hq & Hnd & Hall & C & evs & T & Ev).
  { intros i Hi. by apply Setup_worker_tsafe. }
  exists rcv, st', evs. repeat (split; [done|]).
  intros i b Hb. destruct (Hq i b Hb) as (evs' & O & Ro).
  rewrite T, own_app in O. apply app_inv_head in O. by rewrite O.
Qed.

End SetupAll.

(** C4: [Setup] returns no error exactly when the rollout of every server
    succeeded.  Under every schedule and whatever the answers are, every
    server's goroutine runs to its end and reports once; the outcome of a
    server is decided by its own rollout alone (it is a success exactly when
    its two commands were sent and succeeded), no command is sent twice, and
    nothing is terminated or created. *)
Theorem Setup_succeeds_iff_every_rollout_does (env : Env) (sched : list nat)
    (st : State) :
  exists rcv st' evs r,
    go_all sched (Setup_worker env) st = (Val rcv, st')
    /\ Setup env sched st = (Val r, st')
    /\ trace (world st') = trace (world st) ++ evs
    /\ NoDup (map fst rcv)
    /\ (forall i, (i < length (Config_Server (cfg st)))%nat <-> i ∈ map fst rcv)
    /\ (r = None <-> forall i b, (i, b) ∈ rcv -> b = true)
    /\ (forall i b, (i, b) ∈ rcv ->
          Rollout env (cfg st) i (own i evs) b
          /\ (b = true <->
              commands (own i evs)
              = [("cat > setup.sh", None); ("bash setup.sh", None)])
          /\ map fst (commands (own i evs))
               `prefix_of` ["cat > setup.sh"; "bash setup.sh"])
    /\ terminations evs = [] /\ run_requests evs = [].
Proof.
  destruct (Setup_go_all env sched st)
    as (rcv & st' & evs & E & C & T & Ev & Hnd & Hall & Hro).
  exists rcv, st', evs,
    (if negb (fold_left (fun allOk k => allOk && k.2) rcv true)
     then Some "some instances didn't set up cleanly" else None).
  split; [done|]. split; [unfold Setup; rewrite E; by destruct (fold_left _ rcv true)|]. split; [done|].
  split; [done|]. split; [done|]. split; [|split; [|split]].
  - rewrite <- allOk_true.
    by destruct (fold_left (fun allOk k => allOk && k.2) rcv true).
  - intros i b Hb. specialize (Hro i b Hb). split; [done|].
    destruct (Rollout_commands _ _ _ _ _ Hro) as (? & ? & _). done.
  - apply (emits_no_terminations [KSsh; KLog]); [solve_not_elem|].
    eapply Forall_impl; [exact Ev|].
    intros e (i & _ & [(u & c & si & o & r & ->)|(m & ->)]); solve_emits.
  - apply (emits_no_run_requests [KSsh; KLog]); [solve_not_elem|].
    eapply Forall_impl; [exact Ev|].
    intros e (i & _ & [(u & c & si & o & r & ->)|(m & ->)]); solve_emits.
Qed.

(** ssh to the third server fails: its rollout fails at the upload, the two
    other rollouts succeed, and [Setup] returns its error. *)
Example Setup_with_one_unreachable :
  let end_ := Setup Examples.unreachable_h3 [2%nat; 0%nat; 2%nat; 2%nat; 1%nat]
                (Examples.state Examples.fleet3) in
  end_.1 = Val (Some "some instances didn't set up cleanly")
  /\ commands (own 0 (trace (world end_.2)))
     = [("cat > setup.sh", None); ("bash setup.sh", None)]
  /\ commands (own 1 (trace (world end_.2))) = []
  /\ commands (own 2 (trace (world end_.2)))
     = [("cat > setup.sh", Some "exit status 255")].
Proof. vm_compute. repeat split; reflexivity. Qed.

Lemma find_master_None l :
  (forall s, s ∈ l -> Kind s <> "master") -> find_master l = None.
Proof.
  induction l as [|s l IH]; intros H; [done|]. unfold find_master. simpl.
  destruct (String.eqb_spec (Kind s) "master") as [Hm|_].
  - destruct (H s); [left|done].
  - apply IH. intros s' Hs'. apply H. by right.
Qed.

Lemma setupInstance_script_no_master env c s :
  (forall s', s' ∈ Config_Server c -> Kind s' <> "master") ->
  s ∈ Config_Server c ->
  setupInstance_script env c s = inl "no master found in config".
Proof.
  intros Hno Hs. unfold setupInstance_script.
  destruct (String.eqb_spec (Kind s) "master") as [Hm|_]; [by destruct (Hno s)|].
  by rewrite find_master_None.
Qed.

Lemma emits_no_commands ks evs : KSsh ∉ ks -> emits ks evs -> commands evs = [].
Proof.
  intros Hk. induction 1 as [|e evs He _ IH]; [done|].
  unfold commands. cbn [omap list_omap]. fold (commands evs).
  rewrite IH. unfold command. destruct (ev_op e); done.
Qed.

(** C5, as the program has it: in a fleet without a master the rollout of
    every server ends with the missing-master error before a script is
    rendered or a command is sent, so [Setup] sends no remote command at all;
    the check is made by every server's goroutine, and [Setup] returns its
    own error, that some instances didn't set up cleanly, when the fleet has
    a server, and no error when it has none. *)
Theorem Setup_without_master (env : Env) (sched : list nat) (st : State) :
  (forall s, s ∈ Config_Server (cfg st) -> Kind s <> "master") ->
  exists rcv st' evs,
    go_all sched (Setup_worker env) st = (Val rcv, st')
    /\ Setup env sched st
       = (Val (if decide (Config_Server (cfg st) = []) then None
               else Some "some instances didn't set up cleanly"), st')
    /\ trace (world st') = trace (world st) ++ evs
    /\ emits [KLog] evs /\ commands evs = []
    /\ (forall i, (i < length (Config_Server (cfg st)))%nat <-> i ∈ map fst rcv)
    /\ (forall i b, (i, b) ∈ rcv -> b = false)
    /\ (forall i, (i < length (Config_Server (cfg st)))%nat ->
          exec (setupInstance env i) st
          = (Val (Some "no master found in config"), st)).
Proof.
  intros Hno.
  destruct (Setup_go_all env sched st)
    as (rcv & st' & evs & E & C & T & Ev & Hnd & Hall & Hro).
  assert (Hnone : forall i b, (i, b) ∈ rcv -> own i evs = [] /\ b = false).
  { intros i b Hb. destruct (Hro i b Hb) as (s & Hs & H).
    rewrite (setupInstance_script_no_master env (cfg st) s Hno) in H; [done|].
    apply list_elem_of_lookup. by exists i. }
  assert (Hlog : emits [KLog] evs).
  { apply Forall_forall. intros e He.
    destruct (proj1 (Forall_forall _ _) Ev e He)
      as (i & Hi & [(u & c & si & o & r & Hop)|(m & ->)]); [|solve_emits].
    apply Hall, elem_of_map in Hi as ([i' b] & -> & Hb).
    destruct (Hnone _ _ Hb) as [Hown _]. simpl in Hown.
    assert (Hin : e ∈ own i' evs).
    { apply list_elem_of_filter. split; [|done]. unfold ev_server. by rewrite Hop. }
    rewrite Hown in Hin. by apply elem_of_nil in Hin. }
  exists rcv, st', evs. split; [done|]. split.
  { unfold Setup. rewrite E.
    destruct (fold_left (fun allOk k => allOk && k.2) rcv true) eqn:Hfold; simpl.
    - rewrite decide_True; [done|].
      destruct (Config_Server (cfg st)) as [|s l] eqn:Hl; [done|].
      assert (H0 : 0%nat ∈ map fst rcv) by (apply Hall; simpl; lia).
      apply elem_of_map in H0 as ([i b] & Hi & Hb). simpl in Hi. subst i.
      pose proof (proj1 (allOk_true rcv) Hfold 0%nat b Hb).
      destruct (Hnone _ _ Hb) as [_ ?]. congruence.
    - rewrite decide_False; [done|]. intros Hnil.
      assert (Hfold' : fold_left (fun allOk (k : nat * bool) => allOk && k.2) rcv true
                       = true); [|congruence].
      apply allOk_true. intros i b Hb.
      assert (Hi : i ∈ map fst rcv) by (apply elem_of_map; by exists (i, b)).
      apply Hall in Hi. rewrite Hnil in Hi. simpl in Hi. lia. }
  split; [done|]. split; [done|].
  split; [by apply (emits_no_commands [KLog]); [solve_not_elem|]|].
  split; [done|]. split; [intros i b Hb; by destruct (Hnone i b Hb)|].
  intros i Hi. destruct (lookup_lt_is_Some_2 _ _ Hi) as [s Hs].
  unfold setupInstance, getConfig, getServer. cbn [bind exec]. rewrite Hs.
  cbn [bind exec]. rewrite (setupInstance_script_no_master env (cfg st) s Hno); [done|].
  apply list_elem_of_lookup. by exists i.
Qed.

Lemma Setup_without_master_witness :
  exists rcv st' evs,
    go_all [1%nat; 0%nat] (Setup_worker Examples.calm)
      (Examples.state Examples.relays2) = (Val rcv, st')
    /\ Setup Examples.calm [1%nat; 0%nat] (Examples.state Examples.relays2)
       = (Val (Some "some instances didn't set up cleanly"), st')
    /\ trace (world st') = [] ++ evs
    /\ emits [KLog] evs /\ commands evs = []
    /\ (forall i b, (i, b) ∈ rcv -> b = false).
Proof.
  destruct (Setup_without_master Examples.calm [1%nat; 0%nat]
              (Examples.state Examples.relays2))
    as (rcv & st' & evs & E & S & T & L & Cm & _ & F & _).
  - intros s Hs. simpl in Hs.
    repeat (apply elem_of_cons in Hs as [->|Hs]); [done|done|].
    by apply elem_of_nil in Hs.
  - by exists rcv, st', evs.
Defined.

(** C5 fails as stated: on the empty fleet, which has no master, [Setup]
    returns no error; and on a fleet of two relays the missing-master error
    is met, and logged, once by each server's goroutine, while the error
    [Setup] returns is its own. *)
Lemma Setup_without_master_counterexample :
  Setup Examples.calm [] (Examples.state []) = (Val None, Examples.state [])
  /\ (Setup Examples.calm [] (Examples.state Examples.relays2)).1
     = Val (Some "some instances didn't set up cleanly")
  /\ map ev_op
       (trace (world (Setup Examples.calm [] (Examples.state Examples.relays2)).2))
     = [OpLog "slave Europe (i-1) (h1): no master found in config";
        OpLog "slave USEast (i-2) (h2): no master found in config"].
Proof. vm_compute. repeat split; reflexivity. Qed.

(** *** The goroutines of [Run] *)

Lemma Others_refl i st : Others i st st.
Proof. split; [done|]. split; [lia|done]. Qed.

Lemma Others_trans i st1 st2 st3 :
  Others i st1 st2 -> Others i st2 st3 -> Others i st1 st3.
Proof.
  intros (C1 & N1 & S1 & O1) (C2 & N2 & S2 & O2).
  split; [congruence|]. split; [lia|]. split; congruence.
Qed.

Lemma Own_Others i j st st' : i <> j -> Own j st st' -> Others i st st'.
Proof.
  intros Hne (C & N & S & evs & T & K & E). split; [done|]. split; [done|].
  split; [by apply S|].
  rewrite T, own_app, (own_other i evs), app_nil_r; [done|].
  eapply Forall_impl; [exact E|]. intros e [He|He]; congruence.
Qed.

Lemma Own_Frame i st st' :
  Own i st st' -> Frame [KInstances; KSsh; KSleep; KLog] st st'.
Proof.
  intros (C & N & S & evs & T & K & E). split; [done|]. split; [done|]. by exists evs.
Qed.

Lemma Run_done_stable st1 i v st st' :
  Run_done st1 i v st -> Others i st st' -> Run_done st1 i v st'.
Proof.
  intros (-> & evs & O & P) (_ & _ & _ & O'). split; [done|].
  exists evs. split; [congruence|done].
Qed.

Section RunWorker.

Variables (env : Env) (st1 : State) (i : nat).

Local Abbreviation Run_at := (Run_at st1 i).
Local Abbreviation safe := (tsafe (Others i) (Own i)).

Lemma Run_at_rely evs srv s0 st :
  Run_at evs srv s0 -> Others i s0 st ->
  Run_at evs srv st /\ now (world s0) <= now (world st).
Proof.
  intros (C & S & O) (C' & N' & S' & O'). split; [|done].
  split; [congruence|]. split; congruence.
Qed.

Lemma Own_silent st : Own i st st.
Proof.
  split; [done|]. split; [lia|]. split; [done|]. exists [].
  split; [by rewrite app_nil_r|]. split; constructor.
Qed.

Lemma Own_record st op :
  kind_of op ∈ [KInstances; KSsh; KSleep; KLog] ->
  ev_server {| ev_time := now (world st); ev_op := op |} = Some i
  \/ ev_server {| ev_time := now (world st); ev_op := op |} = None ->
  Own i st {| cfg := cfg st; world := record env (world st) op |}.
Proof.
  intros Hk Hs. split; [done|]. split; [apply record_now|]. split; [done|].
  eexists [_]. split; [reflexivity|].
  split; (constructor; [done|constructor]).
Qed.

Lemma Own_wake st t :
  Own i st {| cfg := cfg st;
              world := {| now := Z.max (now (world st)) t;
                          trace := trace (world st) |} |}.
Proof.
  split; [done|]. split; [simpl; lia|]. split; [done|]. exists [].
  split; [by rewrite app_nil_r|]. split; constructor.
Qed.

Lemma Own_setInstance st inst :
  Own i st {| cfg := set_Server (cfg st)
                       (alter (fun s => set_Instance s inst) i
                              (Config_Server (cfg st)));
              world := world st |}.
Proof.
  split; [apply Config_spec_alter|]. split; [simpl; lia|]. split.
  - intros j Hj. simpl. by rewrite list_lookup_alter_ne.
  - exists []. split; [by rewrite app_nil_r|]. split; constructor.
Qed.

Lemma Run_at_record evs srv st op :
  Run_at evs srv st ->
  Run_at (evs ++ own i [{| ev_time := now (world st); ev_op := op |}]) srv
    {| cfg := cfg st; world := record env (world st) op |}.
Proof.
  intros (C & S & O). split; [done|]. split; [done|].
  cbn [world]. rewrite record_trace, own_app, O, <- app_assoc. done.
Qed.

Lemma getInstance_tsafe evs srv inst r s0 (Q : Err + ec2_Instance -> State -> Prop) :
  Run_at evs srv s0 ->
  Instance srv = Some inst ->
  Locations !! Location srv = Some r ->
  (forall t ids resp s1,
     Run_at (evs ++ [{| ev_time := t; ev_op := OpInstances i r ids resp |}])
       (match described resp with
        | inr inst' => set_Instance srv inst'
        | inl _ => srv
        end) s1 ->
     now (world s0) <= now (world s1) ->
     Q (described resp) s1) ->
  safe (getInstance env i) s0 Q.
Proof.
  intros Hat Hinst Hr HQ.
  unfold getInstance, getConfig, getServer, Server_Region, setInstance, on_world.
  cbn [bind]. intros st1' Hr1. split; [apply Own_silent|]. cbn [fst snd].
  destruct (Run_at_rely _ _ _ _ Hat Hr1) as [Hat1 Hn1].
  intros st2 Hr2. split; [apply Own_silent|]. cbn [fst snd].
  destruct (Run_at_rely _ _ _ _ Hat1 Hr2) as [Hat2 Hn2].
  rewrite (proj1 (proj2 Hat2)). cbn [bind]. rewrite Hr. cbn [bind]. rewrite Hinst.
  cbn [bind]. intros st3 Hr3.
  split; [apply Own_record; [solve_emits|by left]|]. cbn [fst snd].
  destruct (Run_at_rely _ _ _ _ Hat2 Hr3) as [Hat3 Hn3].
  set (resp := ec2_Instances env (world st3) (Config_auth (cfg st1')) r
                 [InstanceId inst]).
  pose proof (Run_at_record evs srv st3 (OpInstances i r [InstanceId inst] resp) Hat3)
    as Hat4.
  rewrite (own_self i) in Hat4 by done.
  assert (Hn4 : now (world s0) <= now (record env (world st3)
                   (OpInstances i r [InstanceId inst] resp))).
  { pose proof (record_now env (world st3) (OpInstances i r [InstanceId inst] resp)).
    lia. }
  assert (Hend : forall s1,
            Run_at (evs ++ [{| ev_time := now (world st3);
                               ev_op := OpInstances i r [InstanceId inst] resp |}])
              srv s1 ->
            now (world s0) <= now (world s1) ->
            forall e, described resp = inl e -> Q (inl e) s1).
  { intros s1 Hs1 Hn e He.
    specialize (HQ (now (world st3)) [InstanceId inst] resp s1).
    rewrite He in HQ. by apply HQ. }
  destruct resp as [e|[|[|inst1 [|inst2 res]] [|res2 reservations]]] eqn:Hresp;
    cbn [bind tsafe]; try (by eapply Hend).
  intros st5 Hr5. split; [apply Own_setInstance|]. cbn [fst snd tsafe].
  destruct (Run_at_rely _ _ _ _ Hat4 Hr5) as [(C5 & S5 & O5) Hn5]. simpl in Hn5.
  apply (HQ (now (world st3)) [InstanceId inst] (inr [[inst1]])); [|simpl; lia].
  split; [simpl; by rewrite Config_spec_alter|]. split; [|done].
  simpl. by rewrite list_lookup_alter_eq, S5.
Qed.

Lemma time_Sleep_tsafe evs srv d s0 (Q : unit -> State -> Prop) :
  Run_at evs srv s0 ->
  (forall t s1,
     Run_at (evs ++ [{| ev_time := t; ev_op := OpSleep i d |}]) srv s1 ->
     now (world s0) + d <= now (world s1) ->
     Q tt s1) ->
  safe (time_Sleep env i d) s0 Q.
Proof.
  intros Hat HQ. unfold time_Sleep. cbn [bind]. intros st2 Hr2.
  split; [apply Own_record; [solve_emits|by left]|]. cbn [fst snd].
  destruct (Run_at_rely _ _ _ _ Hat Hr2) as [Hat2 Hn2].
  pose proof (Run_at_record evs srv st2 (OpSleep i d) Hat2) as Hat3.
  rewrite (own_self i) in Hat3 by done.
  intros st4 Hr4. split; [apply Own_wake|]. cbn [fst snd tsafe].
  destruct (Run_at_rely _ _ _ _ Hat3 Hr4) as [(C4 & S4 & O4) Hn4].
  apply (HQ (now (world st2))); [by split|]. simpl. lia.
Qed.

Lemma waitReady_loop_tsafe deadline n : forall s0 srv inst r evs,
  Run_at evs srv s0 ->
  Instance srv = Some inst ->
  Locations !! Location srv = Some r ->
  Forall (poll_or_sleep i) evs ->
  deadline - now (world s0) <= 5000000000 * Z.of_nat n ->
  safe (waitReady_loop env n i deadline) s0
    (fun _ s1 => exists evs' srv',
       Run_at evs' srv' s1 /\ Forall (poll_or_sleep i) evs').
Proof.
  induction n as [|n IH]; intros s0 srv inst r evs Hat Hinst Hr Hev Hfuel;
    cbn [waitReady_loop]; unfold time_Now; cbn [bind];
    intros st Hst; (split; [apply Own_silent|]); cbn [fst snd];
    destruct (Run_at_rely _ _ _ _ Hat Hst) as [Hat' Hn];
    destruct (Z.ltb_spec (now (world st)) deadline) as [Hlt|Hge];
    try (by exists evs, srv); [lia|].
  apply tsafe_bind.
  apply (getInstance_tsafe evs srv inst r st); [done|done|done|].
  intros t ids resp s1 Hat1 Hn1.
  destruct (described resp) as [e|inst'] eqn:Hd; cbn [tsafe].
  { eexists _, _. split; [exact Hat1|]. apply Forall_app_2; [done|].
    constructor; [|constructor]. left. by eexists _, _, _. }
  assert (Hev1 : Forall (poll_or_sleep i)
                   (evs ++ [{| ev_time := t; ev_op := OpInstances i r ids resp |}])).
  { apply Forall_app_2; [done|]. constructor; [|constructor].
    left. by eexists _, _, _. }
  destruct (negb (DNSName inst' =? "")%string); cbn [tsafe]; [by eexists _, _|].
  apply tsafe_bind. apply (time_Sleep_tsafe _ _ _ _ _ Hat1).
  intros t' s2 Hat2 Hn2.
  apply (IH s2 (set_Instance srv inst') inst' r _ Hat2); [done|done| |lia].
  apply Forall_app_2; [done|]. constructor; [by right|constructor].
Qed.

Lemma Run_worker_tsafe n srv inst r :
  (24 <= n)%nat ->
  Config_Server (cfg st1) !! i = Some srv ->
  Instance srv = Some inst ->
  Locations !! Location srv = Some r ->
  safe (Run_worker env n i) st1 (Run_done st1 i).
Proof.
  intros Hn Hs Hinst Hr.
  assert (Hat0 : Run_at [] srv st1) by (split; [done|]; split; [done|];
                                        by rewrite app_nil_r).
  unfold Run_worker. apply tsafe_bind. unfold waitReady, time_Now. cbn [bind].
  intros st Hst. split; [apply Own_silent|]. cbn [fst snd].
  destruct (Run_at_rely _ _ _ _ Hat0 Hst) as [Hat Hn0].
  eapply tsafe_mono; cycle 1.
  { apply (waitReady_loop_tsafe _ n st srv inst r []);
      [done|done|done|constructor|unfold waitReady_deadline; lia]. }
  intros err s1 (evs & srv' & Hat1 & Hev). cbn beta.
  unfold getServer, log_Println, on_world. cbn [bind].
  intros st2 Hst2. split; [apply Own_silent|]. cbn [fst snd].
  destruct (Run_at_rely _ _ _ _ Hat1 Hst2) as [Hat2 _].
  rewrite (proj1 (proj2 Hat2)). cbn [bind].
  assert (Hlog : forall msg,
            safe (log_Println env msg;;; Ret i) st2 (Run_done st1 i)).
  { intros msg. unfold log_Println, on_world. cbn [bind]. intros st3 Hst3.
    split; [apply Own_record; [solve_emits|by right]|]. cbn [fst snd tsafe].
    destruct (Run_at_rely _ _ _ _ Hat2 Hst3) as [Hat3 _].
    pose proof (Run_at_record _ _ _ (OpLog msg) Hat3) as (_ & _ & O).
    rewrite own_log, app_nil_r in O. split; [done|]. by exists evs. }
  destruct err; apply Hlog.
Qed.

End RunWorker.
